(** * Slot: the draw engine of the lucky-draw reel

    A shallow embedding of [src/assets/js/Slot.ts]: the shuffle
    ([Slot.shuffleNames]), the reel population policy and winner
    bookkeeping of [Slot.spin], and [Slot.forceStopSpin], together with the
    properties the specification states about them.

    Conventions of the embedding
    - a JavaScript array is a [list], and a call that changes it in place
      ([push], [splice]) gives the list after the call; no property stated
      here depends on an array being shared with the host;
      [undefined] as an array element or as the result of an out-of-range
      read is [None];
    - the array [keys] of [shuffleNames] is read and written through
      integer property names, so it is a map from [Z] to values;
    - [number]s that hold counts and indices are [Z] or [nat]; a double is
      the rational it denotes: [Math.random()] returns a double in the unit
      interval and the product [Math.random() * n] is rounded to the nearest
      double, a tie to the one with the even significand ([Double.round]);
    - a child of the reel container is kept with the string that was
      assigned to its [innerHTML], not with the text the browser shows for
      it;
    - a hook is code of the host: calling it is an event appended to a
      trace, as is the message written with [console.error]; a hook is taken
      not to call back into the engine while it runs;
    - [spin] is asynchronous: [spin_begin] is the call up to its [await],
      [spin_resume] the rest, run once the animation has finished. *)

From Stdlib Require Import ZArith QArith Lia.
From stdpp Require Import base list strings.

Set Default Proof Using "Type".

(** ** Numbers *)

Module Js.

(** [ToInt32]: the operand of a bitwise operator is truncated toward zero
    and wrapped into the signed 32-bit range. *)
Definition to_int32 (z : Z) : Z := ((z + 2 ^ 31) `mod` 2 ^ 32 - 2 ^ 31)%Z.

Definition truncate (q : Q) : Z := (Qnum q `quot` Z.pos (Qden q))%Z.

(** [x | 0] on a real [x]. *)
Definition bitor0 (x : Q) : Z := Z.lor (to_int32 (truncate x)) 0.

(** [Number(b)] for a boolean. *)
Definition Number (b : bool) : Z := if b then 1%Z else 0%Z.

(** [l[i]] for an integer [i]: [undefined] outside the array. *)
Definition index {A} (l : list A) (i : Z) : option A :=
  if decide (i < 0)%Z then None else l !! Z.to_nat i.

(** The relative index rule shared by [slice] and [splice]: a negative
    position counts from the end, and the result is clamped to the array. *)
Definition relative (len : nat) (i : Z) : nat :=
  Z.to_nat (if decide (i < 0)%Z then Z.max (Z.of_nat len + i) 0
            else Z.min i (Z.of_nat len)).

(** [l.slice(0, e)]. *)
Definition slice0 {A} (l : list A) (e : Z) : list A :=
  take (relative (length l) e) l.

(** [l.splice(start, 1)]: the array after the call. *)
Definition splice1 {A} (l : list A) (start : Z) : list A :=
  delete (relative (length l) start) l.

(** [l.findIndex(p)]: the first position whose element satisfies [p],
    or [-1]. *)
Fixpoint findIndex {A} (p : A → bool) (l : list A) : Z :=
  match l with
  | [] => (-1)%Z
  | x :: l' =>
      if p x then 0%Z
      else let r := findIndex p l' in
           if decide (r < 0)%Z then (-1)%Z else (r + 1)%Z
  end.

(** String conversion in a template literal or an [innerHTML] assignment. *)
Definition to_string (v : option string) : string :=
  match v with Some s => s | None => "undefined" end.

(** [name === winner] for a string [name]. *)
Definition strict_eq (name : string) (v : option string) : bool :=
  match v with Some s => bool_decide (name = s) | None => false end.

End Js.

(** ** Doubles

    The values of [number] that are not integers by construction: IEEE 754
    binary64, rounded to nearest with ties to even. A finite double is the
    rational it denotes. Overflow to infinity is left out: the products
    rounded here are below 2^1024. *)

Module Double.

(** [2^k ≤ p / q] for positive [p] and [q]. *)
Definition reaches (p q k : Z) : bool :=
  if (0 <=? k)%Z then (2 ^ k * q <=? p)%Z else (q <=? p * 2 ^ (- k))%Z.

(** The binary exponent of [p / q]: [2^k ≤ p / q < 2^(k+1)]. *)
Definition exponent (p q : Z) : Z :=
  let d := (Z.log2 p - Z.log2 q)%Z in
  if reaches p q d then d else (d - 1)%Z.

(** [a / b] rounded to the nearest integer, a tie to the even one. *)
Definition nearest_even (a b : Z) : Z :=
  let f := (a / b)%Z in
  match (2 * (a mod b) ?= b)%Z with
  | Lt => f
  | Gt => (f + 1)%Z
  | Eq => if Z.even f then f else (f + 1)%Z
  end.

(** The exponent of the unit in the last place of the double nearest to
    [p / q]: 53 significant bits, and never below [-1074]. *)
Definition ulp_exponent (p q : Z) : Z := Z.max (exponent p q - 52) (-1074).

(** The double nearest to the positive [p / q]. *)
Definition nearest (p q : Z) : Q :=
  let e := ulp_exponent p q in
  if (e <=? 0)%Z
  then Qmake (nearest_even (p * 2 ^ (- e)) q) (Z.to_pos (2 ^ (- e)))
  else inject_Z (nearest_even p (q * 2 ^ e) * 2 ^ e).

(** A real rounded to a double, to nearest and ties to even. *)
Definition round (x : Q) : Q :=
  match Qnum x with
  | Z0 => 0%Q
  | Zpos p => nearest (Zpos p) (Zpos (Qden x))
  | Zneg p => Qopp (nearest (Zpos p) (Zpos (Qden x)))
  end.

(** [x] is a double. *)
Definition representable (x : Q) : Prop := (round x == x)%Q.

End Double.

(** ** The random source *)

(** The [k]-th call of [Math.random()] returns [rs k]. *)
Definition RandomSource := nat → Q.

(** [Math.random() * n | 0]: the product of two doubles is the double
    nearest to the exact product. *)
Definition random_index (u : Q) (n : nat) : Z :=
  Js.bitor0 (Double.round (u * inject_Z (Z.of_nat n))).

(** The contract of [Math.random()]: a double in [0, 1). *)
Definition unit_interval (rs : RandomSource) : Prop :=
  ∀ k, Double.representable (rs k) ∧ (0 <= rs k)%Q ∧ (rs k < 1)%Q.

(** Every index drawn while shuffling [len] items lies in the range it is
    drawn from: the [k]-th draw is taken from [len - k] remaining keys. *)
Definition draws_in_range (rs : RandomSource) (len : nat) : Prop :=
  ∀ k, k < len →
       (0 ≤ random_index (rs k) (len - k) < Z.of_nat (len - k))%Z.

(** ** shuffleNames *)

Section Shuffle.
Context {T : Type}.

(** An array of keys addressed by integer property name. *)
Definition Keys := Z → option nat.

(** [Object.keys(array)] of a dense array: position [j] holds key [j]. *)
Definition object_keys (array : list T) : Keys :=
  λ j, if decide (0 ≤ j < Z.of_nat (length array))%Z
       then Some (Z.to_nat j) else None.

(** [keys[j] = v] *)
Definition assign (keys : Keys) (j : Z) (v : option nat) : Keys :=
  λ j', if decide (j' = j) then v else keys j'.

(** The variables of the loop other than [n]. *)
Record ShuffleVars := mkShuffleVars {
  sv_array : list T;
  sv_keys : Keys;
  sv_result : list (option T);
  sv_k : nat
}.

(** One pass through the loop body, entered with [n = S n']. *)
Definition shuffle_body (rs : RandomSource) (n' : nat) (st : ShuffleVars)
  : ShuffleVars :=
  let i := random_index (rs (sv_k st)) (S n') in
  let key := sv_keys st i in
  let result := sv_result st ++ [key ≫= (sv_array st !!.)] in
  let tmp := sv_keys st (Z.of_nat n') in
  let keys := assign (assign (sv_keys st) (Z.of_nat n') key) i tmp in
  {| sv_array := sv_array st; sv_keys := keys;
     sv_result := result; sv_k := S (sv_k st) |}.

(** [for (...; k < array.length && n > 0; k += 1)] *)
Fixpoint shuffle_loop (rs : RandomSource) (n : nat) (st : ShuffleVars)
  : ShuffleVars :=
  match n with
  | 0 => st
  | S n' =>
      if decide (sv_k st < length (sv_array st))
      then shuffle_loop rs n' (shuffle_body rs n' st)
      else st
  end.

Definition shuffle_run (array : list T) (rs : RandomSource) : ShuffleVars :=
  shuffle_loop rs (length array)
    {| sv_array := array; sv_keys := object_keys array;
       sv_result := []; sv_k := 0 |}.

Definition shuffleNames (array : list T) (rs : RandomSource)
  : list (option T) :=
  sv_result (shuffle_run array rs).

(** *** The reference algorithm of the specification

    In-place Fisher–Yates over a working copy: from the last index down
    to the first, draw an index in [0, currentIndex] and swap the current
    element with the element at that index. *)

Definition swap (a : list T) (i j : nat) : list T :=
  match a !! i, a !! j with
  | Some x, Some y => <[j := x]> (<[i := y]> a)
  | _, _ => a
  end.

Fixpoint fisher_yates_loop (rs : RandomSource) (remaining draw : nat)
    (a : list T) : list T :=
  match remaining with
  | 0 => a
  | S current =>
      let j := random_index (rs draw) (S current) in
      fisher_yates_loop rs current (S draw) (swap a current (Z.to_nat j))
  end.

Definition fisher_yates (items : list T) (rs : RandomSource) : list T :=
  fisher_yates_loop rs (length items) 0 items.

(** *** The loop invariant

    What links the loop of [shuffleNames], entered with [n] keys left, to
    the working copy [a] of the reference algorithm with [n] positions
    left: the keys at the positions of [array] select the elements of
    [a], and [result] holds the settled tail of [a], last position
    first. *)
Record linked (array : list T) (n : nat) (st : ShuffleVars) (a : list T)
  : Prop := {
  linked_array : sv_array st = array;
  linked_k : sv_k st + n = length array;
  linked_length : length a = length array;
  linked_keys : ∀ j x, a !! j = Some x →
      ∃ key, sv_keys st (Z.of_nat j) = Some key ∧ array !! key = Some x;
  linked_result : sv_result st = Some <$> reverse (drop n a)
}.

End Shuffle.

Arguments ShuffleVars : clear implicits.

(** ** The engine state *)

(** Play state of the reel animation ([Animation.playState]); it carries the
    spin state of the specification: idle, spinning ([AnimRunning]) and
    settled ([AnimFinished]). *)
Inductive PlayState := AnimIdle | AnimRunning | AnimFinished.

(** The exceptions the engine lets through: the [TypeError] of
    [animate] and of a property read on [null], and the [SyntaxError] of
    [querySelector]. *)
Inductive JsError := TypeError | SyntaxError.

Module Dom.

(** A child of the reel container: an element the page itself put there,
    or a [div] made by [spin()], kept with the string assigned to its
    [innerHTML]. The browser parses that string as markup: the item shows
    the string itself only when it holds no markup. *)
Inductive Element :=
  | PageElement (outerHTML : string)
  | ReelItem (innerHTML : string).

(** [document.querySelector(selector)]: a [SyntaxError] when the selector
    is not a valid one, [null] when it matches nothing, and the first
    element it matches otherwise, given by its children. *)
Definition Document := string → JsError + option (list Element).

(** [animation.play()] on an animation of the given duration: it runs from
    its start, and with nothing to run it is finished at once. *)
Definition play (duration : Z) : PlayState :=
  if decide (duration = 0)%Z then AnimFinished else AnimRunning.

(** [element.animate(keyframes, { duration, ... })] creates the animation
    and plays it; a negative duration is refused with a [TypeError]. *)
Definition animate (duration : Z) : JsError + PlayState :=
  if decide (duration < 0)%Z then inl TypeError else inr (play duration).

(** [Array.from(children).slice(0, children.length - 1)] are removed. *)
Definition keep_last_child (children : list Element) : list Element :=
  drop (length (Js.slice0 children (Z.of_nat (length children) - 1)))
       children.

End Dom.

(** What the engine does to its host: the hooks it calls and the message it
    writes with [console.error]. *)
Inductive Event :=
  | SpinStartHook
  | SpinEndHook
  | NameListChangedHook
  | ConsoleError (msg : string).

Record SlotConfigurations := mkSlotConfigurations {
  cfg_maxReelItems : option Z;
  cfg_removeWinner : option bool;
  cfg_reelContainerSelector : string;
  cfg_onSpinStart : bool;
  cfg_onSpinEnd : bool;
  cfg_onNameListChanged : bool
}.

(** The fields of [class Slot]. [reelContainer] is the list of the
    container's children, or [None] for [null]; the three hook fields say
    whether the hook was configured. *)
Record Slot := mkSlot {
  nameList : list string;
  prizeList : list string;
  winnerList : list string;
  randomNames : list (option string);
  havePreviousWinner : bool;
  reelContainer : option (list Dom.Element);
  maxReelItems : Z;
  shouldRemoveWinner : bool;
  reelAnimation : option PlayState;
  onSpinStart : bool;
  onSpinEnd : bool;
  onNameListChanged : bool
}.

(** The result of running a method: the state it leaves, the events it
    caused, in order, and what it returned. *)
Record Run (R : Type) := mkRun {
  after : Slot;
  fired : list Event;
  value : R
}.
Arguments mkRun {R}.
Arguments after {R}.
Arguments fired {R}.
Arguments value {R}.

(** [if (this.hook) this.hook()] *)
Definition call_hook (configured : bool) (e : Event) : list Event :=
  if configured then [e] else [].

(** ** constructor and accessors *)

Definition constructor (document : Dom.Document) (cfg : SlotConfigurations)
  : JsError + Slot :=
  let maxReelItems := default 30%Z (cfg_maxReelItems cfg) in
  let removeWinner := default true (cfg_removeWinner cfg) in
  let build reelContainer anim :=
    {| nameList := []; prizeList := []; winnerList := []; randomNames := [];
       havePreviousWinner := false; reelContainer := reelContainer;
       maxReelItems := maxReelItems; shouldRemoveWinner := removeWinner;
       reelAnimation := anim;
       onSpinStart := cfg_onSpinStart cfg; onSpinEnd := cfg_onSpinEnd cfg;
       onNameListChanged := cfg_onNameListChanged cfg |} in
  match document (cfg_reelContainerSelector cfg) with
  | inl e => inl e
  | inr None => inr (build None None)
  | inr (Some children) =>
      match Dom.animate (maxReelItems * 50) with
      | inl e => inl e
      | inr _ =>
          inr (build (Some children) (Some AnimIdle))
          (* [reelAnimation.cancel()] *)
      end
  end.

(** [set names(names)] *)
Definition set_names (names : list string) (s : Slot) : Run unit :=
  {| after :=
       {| nameList := names; prizeList := prizeList s;
          winnerList := winnerList s; randomNames := randomNames s;
          havePreviousWinner := false;
          reelContainer := (λ _, []) <$> reelContainer s;
          maxReelItems := maxReelItems s;
          shouldRemoveWinner := shouldRemoveWinner s;
          reelAnimation := reelAnimation s;
          onSpinStart := onSpinStart s; onSpinEnd := onSpinEnd s;
          onNameListChanged := onNameListChanged s |};
     fired := call_hook (onNameListChanged s) NameListChangedHook;
     value := () |}.

(** [set prizes(prizes)] *)
Definition set_prizes (prizes : list string) (s : Slot) : Slot :=
  {| nameList := nameList s; prizeList := prizes;
     winnerList := winnerList s; randomNames := randomNames s;
     havePreviousWinner := havePreviousWinner s;
     reelContainer := reelContainer s; maxReelItems := maxReelItems s;
     shouldRemoveWinner := shouldRemoveWinner s;
     reelAnimation := reelAnimation s;
     onSpinStart := onSpinStart s; onSpinEnd := onSpinEnd s;
     onNameListChanged := onNameListChanged s |}.

(** [set shouldRemoveWinnerFromNameList(removeWinner)] *)
Definition set_shouldRemoveWinnerFromNameList (removeWinner : bool) (s : Slot)
  : Slot :=
  {| nameList := nameList s; prizeList := prizeList s;
     winnerList := winnerList s; randomNames := randomNames s;
     havePreviousWinner := havePreviousWinner s;
     reelContainer := reelContainer s; maxReelItems := maxReelItems s;
     shouldRemoveWinner := removeWinner;
     reelAnimation := reelAnimation s;
     onSpinStart := onSpinStart s; onSpinEnd := onSpinEnd s;
     onNameListChanged := onNameListChanged s |}.

(** [this.prizeList.length <= 0 ? '-------' : this.prizeList[0]] *)
Definition getActivePrizeToDraw (s : Slot) : string :=
  if decide (Z.of_nat (length (prizeList s)) ≤ 0)%Z then "-------"
  else default "-------" (prizeList s !! 0).

(** [addWinner(name, prize)]: the winner list after the push. *)
Definition addWinner (name : option string) (prize : string)
    (winners : list string) : list string :=
  winners ++ [prize +:+ " - " +:+ Js.to_string name].

(** ** spin *)

(** [while (names.length && names.length < max) names = [...names, ...names]].
    Every pass at least adds one item, so [fuel] passes are enough as soon
    as [max ≤ fuel] ([pad_reel_exit] below). *)
Fixpoint pad_reel {A} (fuel : nat) (max : Z) (names : list A) : list A :=
  match fuel with
  | 0 => names
  | S fuel' =>
      if decide (length names ≠ 0 ∧ (Z.of_nat (length names) < max)%Z)
      then pad_reel fuel' max (names ++ names)
      else names
  end.

(** The reel items of one spin: shuffle, pad, truncate. *)
Definition populate (s : Slot) (rs : RandomSource) : list (option string) :=
  let shuffled := shuffleNames (nameList s) rs in
  let padded := pad_reel (Z.to_nat (maxReelItems s)) (maxReelItems s) shuffled in
  Js.slice0 padded (maxReelItems s - Js.Number (havePreviousWinner s)).

(** [randomNames[randomNames.length - 1]] *)
Definition last_item (names : list (option string)) : option string :=
  mjoin (Js.index names (Z.of_nat (length names) - 1)).

(** [randomNames.forEach(...)]: one [div] for each reel item, the item
    assigned to its [innerHTML], in the order of the reel. *)
Definition reel_items (names : list (option string)) : list Dom.Element :=
  (λ name, Dom.ReelItem (Js.to_string name)) <$> names.

(** A call of [spin()] either has returned, or waits for the animation. *)
Inductive SpinPhase := Resolved (b : bool) | Awaiting.

(** [spin()] up to [await animationPromise]. *)
Definition spin_begin (s : Slot) (rs : RandomSource) : Run SpinPhase :=
  if decide (length (nameList s) = 0) then
    {| after := s;
       fired := [ConsoleError "Name List is empty. Cannot start spinning."];
       value := Resolved false |}
  else
    let started := call_hook (onSpinStart s) SpinStartHook in
    match reelContainer s, reelAnimation s with
    | Some children, Some _ =>
        let names := populate s rs in
        let winner := last_item names in
        let winners := addWinner winner (getActivePrizeToDraw s) (winnerList s) in
        let remaining :=
          if shouldRemoveWinner s
          then Js.splice1 (nameList s)
                 (Js.findIndex (λ name, Js.strict_eq name winner) (nameList s))
          else nameList s in
        {| after :=
             {| nameList := remaining;
                prizeList := Js.splice1 (prizeList s) 0;
                winnerList := winners;
                randomNames := names;
                havePreviousWinner := havePreviousWinner s;
                reelContainer := Some (children ++ reel_items names);
                maxReelItems := maxReelItems s;
                shouldRemoveWinner := shouldRemoveWinner s;
                (* [reelAnimation.play()] *)
                reelAnimation := Some (Dom.play (maxReelItems s * 50));
                onSpinStart := onSpinStart s; onSpinEnd := onSpinEnd s;
                onNameListChanged := onNameListChanged s |};
           fired := started;
           value := Awaiting |}
    | _, _ => {| after := s; fired := started; value := Resolved false |}
    end.

(** The settle steps both [spin] and [forceStopSpin] perform once the reel
    container is at hand: finish the animation, keep the last reel item,
    record that a winner is displayed. *)
Definition settle (children : list Dom.Element) (s : Slot) : Slot :=
  {| nameList := nameList s; prizeList := prizeList s;
     winnerList := winnerList s; randomNames := randomNames s;
     havePreviousWinner := true;
     reelContainer := Some (Dom.keep_last_child children);
     maxReelItems := maxReelItems s;
     shouldRemoveWinner := shouldRemoveWinner s;
     reelAnimation := (λ _, AnimFinished) <$> reelAnimation s;
     onSpinStart := onSpinStart s; onSpinEnd := onSpinEnd s;
     onNameListChanged := onNameListChanged s |}.

(** [spin()] from the moment the awaited promise resolves; it is only
    entered from [Awaiting], where the container exists. *)
Definition spin_resume (s : Slot) : Run bool :=
  {| after := settle (default [] (reelContainer s)) s;
     fired := call_hook (onSpinEnd s) SpinEndHook;
     value := true |}.

(** [forceStopSpin()]. [reelContainer!.children] throws on [null]; nothing
    was changed before that point unless an animation exists. *)
Definition forceStopSpin (s : Slot) : Run (JsError + bool) :=
  match reelContainer s with
  | None =>
      {| after :=
           {| nameList := nameList s; prizeList := prizeList s;
              winnerList := winnerList s; randomNames := randomNames s;
              havePreviousWinner := havePreviousWinner s;
              reelContainer := None; maxReelItems := maxReelItems s;
              shouldRemoveWinner := shouldRemoveWinner s;
              reelAnimation := (λ _, AnimFinished) <$> reelAnimation s;
              onSpinStart := onSpinStart s; onSpinEnd := onSpinEnd s;
              onNameListChanged := onNameListChanged s |};
         fired := []; value := inl TypeError |}
  | Some children =>
      {| after := settle children s;
         fired := call_hook (onSpinEnd s) SpinEndHook;
         value := inr true |}
  end.

(** The animation reaches its end by itself. *)
Definition animation_ends (s : Slot) : Slot :=
  {| nameList := nameList s; prizeList := prizeList s;
     winnerList := winnerList s; randomNames := randomNames s;
     havePreviousWinner := havePreviousWinner s;
     reelContainer := reelContainer s; maxReelItems := maxReelItems s;
     shouldRemoveWinner := shouldRemoveWinner s;
     reelAnimation := (λ _, AnimFinished) <$> reelAnimation s;
     onSpinStart := onSpinStart s; onSpinEnd := onSpinEnd s;
     onNameListChanged := onNameListChanged s |}.

(** How the awaited animation comes to its end: by itself, or because the
    host calls [forceStopSpin()] meanwhile. *)
Inductive Ending := Natural | Forced.

(** A whole call of [spin()], from the call to the resolution of the
    promise it returns. *)
Definition spin (how : Ending) (s : Slot) (rs : RandomSource) : Run bool :=
  let r1 := spin_begin s rs in
  match value r1 with
  | Resolved b => {| after := after r1; fired := fired r1; value := b |}
  | Awaiting =>
      let '(s2, e2) :=
        match how with
        | Natural => (animation_ends (after r1), [])
        | Forced => let r := forceStopSpin (after r1) in (after r, fired r)
        end in
      let r3 := spin_resume s2 in
      {| after := after r3; fired := fired r1 ++ e2 ++ fired r3;
         value := value r3 |}
  end.

(** ** Vocabulary of the statements *)

(** [names] after [k] passes of the padding loop. *)
Definition doubled {A} (k : nat) (names : list A) : list A :=
  Nat.iter k (λ l, l ++ l) names.

(** The label [getActivePrizeToDraw] is specified to give: the head of the
    prize queue, or the placeholder. *)
Definition active_prize (prizes : list string) : string :=
  match prizes with
  | [] => "-------"
  | prize :: _ => prize
  end.

(** A reel item that is one of the given names. *)
Definition drawn_from (names : list string) (item : option string) : Prop :=
  ∃ name, item = Some name ∧ name ∈ names.

(** ** A host page and two draws *)

Module Scenario.

(** A page whose only element is the reel container [#reel], empty. The
    empty string is not a selector; the scenarios query the page with no
    other string, and it answers any as a selector that matches nothing. *)
Definition page : Dom.Document :=
  λ selector,
    if bool_decide (selector = "#reel") then inr (Some [])
    else if bool_decide (selector = EmptyString) then inl SyntaxError
    else inr None.

Definition configuration (maxReelItems : Z) (removeWinner : bool)
  : SlotConfigurations :=
  {| cfg_maxReelItems := Some maxReelItems;
     cfg_removeWinner := Some removeWinner;
     cfg_reelContainerSelector := "#reel";
     cfg_onSpinStart := true; cfg_onSpinEnd := true;
     cfg_onNameListChanged := true |}.

(** The engine [new Slot(configuration ...)] yields on that page. *)
Definition fresh (maxReelItems : Z) (removeWinner : bool) : Slot :=
  {| nameList := []; prizeList := []; winnerList := []; randomNames := [];
     havePreviousWinner := false; reelContainer := Some [];
     maxReelItems := maxReelItems; shouldRemoveWinner := removeWinner;
     reelAnimation := Some AnimIdle;
     onSpinStart := true; onSpinEnd := true; onNameListChanged := true |}.

(** The settings dialog is saved with the given names and prizes. *)
Definition loaded (names prizes : list string) (s : Slot) : Slot :=
  set_prizes prizes (after (set_names names s)).

(** Random sources: [Math.random()] always returns 0, or always 1/2. *)
Definition low : RandomSource := λ _, 0%Q.
Definition half : RandomSource := λ _, (1 # 2)%Q.

(** Two consecutive draws, each ended with the stop button. *)
Definition first_draw (s : Slot) (rs : RandomSource) : Run bool :=
  spin Forced s rs.
Definition second_draw (s : Slot) (rs : RandomSource) : Run bool :=
  spin Forced (after (first_draw s rs)) rs.

(** One reel item, winners stay in the list. *)
Definition keeping : Slot :=
  loaded ["Alice"; "Bob"] ["Gold"; "Silver"] (fresh 1 false).

(** One reel item, winners are removed. *)
Definition removing : Slot :=
  loaded ["Alice"; "Bob"; "Carol"] ["Gold"; "Silver"] (fresh 1 true).

(** The scenario of the specification: three names, one prize, a reel of
    three items, winners removed. *)
Definition gala : Slot :=
  loaded ["Alice"; "Bob"; "Carol"] ["Gold"] (fresh 3 true).

(** Two names on a reel of five items. *)
Definition pair : Slot :=
  loaded ["Alice"; "Bob"] ["Gold"] (fresh 5 true).


End Scenario.

(** ** Vocabulary of the further properties *)

(** The draws of the shuffle loop entered with [n] positions left, the first
    of them being draw number [d], lie in their ranges. *)
Definition loop_draws_in_range (rs : RandomSource) (n d : nat) : Prop :=
  ∀ k, k < n →
       (0 ≤ random_index (rs (d + k)%nat) (n - k) < Z.of_nat (n - k))%Z.

(** The random source whose [k]-th value is the least multiple of 2^-53
    that is at least [j / (len - k)], for the [k]-th index [j] of [js], and
    0 once [js] is used up: it makes a shuffle of [len] items draw the
    indices [js]. *)
Definition source_of_indices (len : nat) (js : list nat) : RandomSource :=
  λ k, let j := Z.of_nat (default 0 (js !! k)) in
       let n := Z.of_nat (len - k) in
       Qmake ((j * 2 ^ 53 + n - 1) / n) (Z.to_pos (2 ^ 53)).

(** ** Sequences of calls *)

(** The calls a host can make on an engine. *)
Inductive Call :=
  | CallSpin (how : Ending) (rs : RandomSource)
  | CallForceStopSpin
  | CallSetNames (names : list string)
  | CallSetPrizes (prizes : list string)
  | CallSetShouldRemoveWinner (removeWinner : bool).

(** The engine after one call; a [spin] is taken to the resolution of its
    promise. *)
Definition call (c : Call) (s : Slot) : Slot :=
  match c with
  | CallSpin how rs => after (spin how s rs)
  | CallForceStopSpin => after (forceStopSpin s)
  | CallSetNames names => after (set_names names s)
  | CallSetPrizes prizes => set_prizes prizes s
  | CallSetShouldRemoveWinner removeWinner =>
      set_shouldRemoveWinnerFromNameList removeWinner s
  end.

Definition calls (cs : list Call) (s : Slot) : Slot :=
  foldl (λ s c, call c s) s cs.

(** Draws made one after the other, each with its way of ending and its
    random source: what each [spin()] resolved to, and the engine left. *)
Fixpoint spin_all (rounds : list (Ending * RandomSource)) (s : Slot)
  : list bool * Slot :=
  match rounds with
  | [] => ([], s)
  | (how, rs) :: rest =>
      let r := spin how s rs in
      let '(results, s') := spin_all rest (after r) in
      (value r :: results, s')
  end.

(** ** The host page

    The script that creates the engine and wires it to the page (the
    second source file): its text handling, and the handlers of the draw
    button, the stop button and the settings dialog, on the parts of the
    page they read and write. A string is the sequence of its code units,
    here those of 8 bits. *)

Module Host.

Definition line_feed : Ascii.ascii := Ascii.ascii_of_nat 10.
Definition carriage_return : Ascii.ascii := Ascii.ascii_of_nat 13.

(** The code units [trim] strips, white space and line terminators, among
    those of 8 bits: U+0009 to U+000D, U+0020 and U+00A0. *)
Definition is_white_space (c : Ascii.ascii) : bool :=
  let n := Ascii.nat_of_ascii c in
  ((9 <=? n) && (n <=? 13)) || (n =? 32) || (n =? 160).

(** [Boolean(text)]: a string is truthy unless it is empty. *)
Definition Boolean (text : string) : bool :=
  match text with
  | EmptyString => false
  | String _ _ => true
  end.

(** [text.split(/\n/)] *)
Fixpoint split_lines (text : string) : list string :=
  match text with
  | EmptyString => [EmptyString]
  | String c rest =>
      if Ascii.eqb c line_feed then EmptyString :: split_lines rest
      else match split_lines rest with
           | line :: lines => String c line :: lines
           | [] => [String c EmptyString]
           end
  end.

Fixpoint trim_start (text : string) : string :=
  match text with
  | EmptyString => EmptyString
  | String c rest => if is_white_space c then trim_start rest else text
  end.

Fixpoint trim_end (text : string) : string :=
  match text with
  | EmptyString => EmptyString
  | String c rest =>
      match trim_end rest with
      | EmptyString => if is_white_space c then EmptyString
                       else String c EmptyString
      | kept => String c kept
      end
  end.

(** [text.trim()] *)
Definition trim (text : string) : string := trim_end (trim_start text).

(** [names.join('\n')] *)
Definition join_lines (names : list string) : string :=
  String.concat (String line_feed EmptyString) names.

(** The value a text area gives back for the text it holds: line breaks
    come back as line feeds. *)
Fixpoint textarea_value (raw : string) : string :=
  match raw with
  | EmptyString => EmptyString
  | String c rest =>
      if Ascii.eqb c carriage_return then
        String line_feed
          match rest with
          | String c' rest' =>
              if Ascii.eqb c' line_feed then textarea_value rest'
              else textarea_value rest
          | EmptyString => EmptyString
          end
      else String c (textarea_value rest)
  end.

(** [value ? value.split(/\n/).filter((name) => Boolean(name.trim())) : []] *)
Definition entered_list (value : string) : list string :=
  if Boolean value
  then List.filter (λ name, Boolean (trim name)) (split_lines value)
  else [].

(** [slot.names.length ? slot.names.join('\n') : ''] *)
Definition shown_list (names : list string) : string :=
  if decide (length names = 0) then EmptyString else join_lines names.

(** The parts of the page the handlers read and write, with the engine.
    [awaiting] says that a call of [spin()] waits for the animation to
    finish; [mute] is the property of that name of the sound effects, which
    the handlers assign and read; [alerts] and [hooks] record the calls of
    [alert] and of the engine's hooks. Whether a button is disabled is not
    part of the page here: every handler can run at any time. *)
Record Page := mkPage {
  slot : Slot;
  awaiting : bool;
  nameListTextArea : string;
  prizeListTextArea : string;
  removeNameFromListCheckbox : bool;
  enableSoundCheckbox : bool;
  mute : bool;
  settingsShown : bool;
  activePrize : string;
  winnersListPanel : list string;
  alerts : list string;
  hooks : list Event
}.

Definition with_slot (s : Slot) (events : list Event) (p : Page) : Page :=
  {| slot := s; awaiting := awaiting p;
     nameListTextArea := nameListTextArea p;
     prizeListTextArea := prizeListTextArea p;
     removeNameFromListCheckbox := removeNameFromListCheckbox p;
     enableSoundCheckbox := enableSoundCheckbox p; mute := mute p;
     settingsShown := settingsShown p; activePrize := activePrize p;
     winnersListPanel := winnersListPanel p; alerts := alerts p;
     hooks := hooks p ++ events |}.

(** [activePrize.innerText = slot.getActivePrizeToDraw()] *)
Definition showActivePrizeToDraw (p : Page) : Page :=
  {| slot := slot p; awaiting := awaiting p;
     nameListTextArea := nameListTextArea p;
     prizeListTextArea := prizeListTextArea p;
     removeNameFromListCheckbox := removeNameFromListCheckbox p;
     enableSoundCheckbox := enableSoundCheckbox p; mute := mute p;
     settingsShown := settingsShown p;
     activePrize := getActivePrizeToDraw (slot p);
     winnersListPanel := winnersListPanel p; alerts := alerts p;
     hooks := hooks p |}.

Definition onSettingsOpen (p : Page) : Page :=
  {| slot := slot p; awaiting := awaiting p;
     nameListTextArea := shown_list (nameList (slot p));
     prizeListTextArea := prizeListTextArea p;
     removeNameFromListCheckbox := shouldRemoveWinner (slot p);
     enableSoundCheckbox := negb (mute p); mute := mute p;
     settingsShown := true; activePrize := activePrize p;
     winnersListPanel := winnersListPanel p; alerts := alerts p;
     hooks := hooks p |}.

Definition onSettingsClose (p : Page) : Page :=
  {| slot := slot p; awaiting := awaiting p;
     nameListTextArea := nameListTextArea p;
     prizeListTextArea := prizeListTextArea p;
     removeNameFromListCheckbox := removeNameFromListCheckbox p;
     enableSoundCheckbox := enableSoundCheckbox p; mute := mute p;
     settingsShown := false; activePrize := activePrize p;
     winnersListPanel := winnersListPanel p; alerts := alerts p;
     hooks := hooks p |}.

Definition alert (message : string) (p : Page) : Page :=
  {| slot := slot p; awaiting := awaiting p;
     nameListTextArea := nameListTextArea p;
     prizeListTextArea := prizeListTextArea p;
     removeNameFromListCheckbox := removeNameFromListCheckbox p;
     enableSoundCheckbox := enableSoundCheckbox p; mute := mute p;
     settingsShown := settingsShown p; activePrize := activePrize p;
     winnersListPanel := winnersListPanel p;
     alerts := alerts p ++ [message];
     hooks := hooks p |}.

(** The click handler of the save button of the settings. *)
Definition on_save_click (p : Page) : Page :=
  let names := set_names
                 (entered_list (textarea_value (nameListTextArea p))) (slot p) in
  let s1 := set_prizes
              (entered_list (textarea_value (prizeListTextArea p)))
              (after names) in
  let s2 := set_shouldRemoveWinnerFromNameList
              (removeNameFromListCheckbox p) s1 in
  let p1 := with_slot s2 (fired names) p in
  let p2 :=
    {| slot := slot p1; awaiting := awaiting p1;
       nameListTextArea := nameListTextArea p1;
       prizeListTextArea := prizeListTextArea p1;
       removeNameFromListCheckbox := removeNameFromListCheckbox p1;
       enableSoundCheckbox := enableSoundCheckbox p1;
       mute := negb (enableSoundCheckbox p1);
       settingsShown := settingsShown p1; activePrize := activePrize p1;
       winnersListPanel := winnersListPanel p1; alerts := alerts p1;
       hooks := hooks p1 |} in
  showActivePrizeToDraw (onSettingsClose p2).

(** The click handler of the draw button. The handler does not wait for
    [slot.spin()]: it returns when the spin has begun. The start hook of the
    page shows the active prize again before the spin changes any list. *)
Definition on_draw_click (rs : RandomSource) (p : Page) : Page :=
  if decide (length (nameList (slot p)) = 0) then
    alert "Please insert name list" (onSettingsOpen p)
  else if decide (length (prizeList (slot p)) = 0) then
    alert "Please insert prize item list" (onSettingsOpen p)
  else
    let p1 := showActivePrizeToDraw p in
    let r := spin_begin (slot p1) rs in
    let p2 := if onSpinStart (slot p1) then showActivePrizeToDraw p1 else p1 in
    let p3 := with_slot (after r) (fired r) p2 in
    {| slot := slot p3;
       awaiting := match value r with
                   | Awaiting => true
                   | Resolved _ => awaiting p3
                   end;
       nameListTextArea := nameListTextArea p3;
       prizeListTextArea := prizeListTextArea p3;
       removeNameFromListCheckbox := removeNameFromListCheckbox p3;
       enableSoundCheckbox := enableSoundCheckbox p3; mute := mute p3;
       settingsShown := settingsShown p3; activePrize := activePrize p3;
       winnersListPanel := winnersListPanel p3; alerts := alerts p3;
       hooks := hooks p3 |}.

(** The click handler of the stop button; when [forceStopSpin()] throws,
    the handler ends there. *)
Definition on_stop_click (p : Page) : Page :=
  let r := forceStopSpin (slot p) in
  let p1 := with_slot (after r) (fired r) p in
  match value r with
  | inl _ => p1
  | inr _ =>
      {| slot := slot p1; awaiting := awaiting p1;
         nameListTextArea := nameListTextArea p1;
         prizeListTextArea := prizeListTextArea p1;
         removeNameFromListCheckbox := removeNameFromListCheckbox p1;
         enableSoundCheckbox := enableSoundCheckbox p1; mute := mute p1;
         settingsShown := settingsShown p1; activePrize := activePrize p1;
         winnersListPanel := winnerList (slot p1); alerts := alerts p1;
         hooks := hooks p1 |}
  end.

(** The animation has finished, by itself or stopped: the waiting spin, if
    there is one, runs to its end. *)
Definition on_animation_finish (p : Page) : Page :=
  if awaiting p then
    let r := spin_resume (animation_ends (slot p)) in
    let p1 := with_slot (after r) (fired r) p in
    {| slot := slot p1; awaiting := false;
       nameListTextArea := nameListTextArea p1;
       prizeListTextArea := prizeListTextArea p1;
       removeNameFromListCheckbox := removeNameFromListCheckbox p1;
       enableSoundCheckbox := enableSoundCheckbox p1; mute := mute p1;
       settingsShown := settingsShown p1; activePrize := activePrize p1;
       winnersListPanel := winnersListPanel p1; alerts := alerts p1;
       hooks := hooks p1 |}
  else p.

(** What can happen on the page: the user edits a text area or a check
    box, clicks a button, or the animation finishes. *)
Inductive Action :=
  | TypeNames (raw : string)
  | TypePrizes (raw : string)
  | CheckRemove (checked : bool)
  | CheckSound (checked : bool)
  | ClickSettings
  | ClickSave
  | ClickClose
  | ClickDraw (rs : RandomSource)
  | ClickStop
  | AnimationFinish.

Definition act (a : Action) (p : Page) : Page :=
  match a with
  | TypeNames raw =>
      {| slot := slot p; awaiting := awaiting p;
         nameListTextArea := raw;
         prizeListTextArea := prizeListTextArea p;
         removeNameFromListCheckbox := removeNameFromListCheckbox p;
         enableSoundCheckbox := enableSoundCheckbox p; mute := mute p;
         settingsShown := settingsShown p; activePrize := activePrize p;
         winnersListPanel := winnersListPanel p; alerts := alerts p;
         hooks := hooks p |}
  | TypePrizes raw =>
      {| slot := slot p; awaiting := awaiting p;
         nameListTextArea := nameListTextArea p;
         prizeListTextArea := raw;
         removeNameFromListCheckbox := removeNameFromListCheckbox p;
         enableSoundCheckbox := enableSoundCheckbox p; mute := mute p;
         settingsShown := settingsShown p; activePrize := activePrize p;
         winnersListPanel := winnersListPanel p; alerts := alerts p;
         hooks := hooks p |}
  | CheckRemove checked =>
      {| slot := slot p; awaiting := awaiting p;
         nameListTextArea := nameListTextArea p;
         prizeListTextArea := prizeListTextArea p;
         removeNameFromListCheckbox := checked;
         enableSoundCheckbox := enableSoundCheckbox p; mute := mute p;
         settingsShown := settingsShown p; activePrize := activePrize p;
         winnersListPanel := winnersListPanel p; alerts := alerts p;
         hooks := hooks p |}
  | CheckSound checked =>
      {| slot := slot p; awaiting := awaiting p;
         nameListTextArea := nameListTextArea p;
         prizeListTextArea := prizeListTextArea p;
         removeNameFromListCheckbox := removeNameFromListCheckbox p;
         enableSoundCheckbox := checked; mute := mute p;
         settingsShown := settingsShown p; activePrize := activePrize p;
         winnersListPanel := winnersListPanel p; alerts := alerts p;
         hooks := hooks p |}
  | ClickSettings => onSettingsOpen p
  | ClickSave => on_save_click p
  | ClickClose => onSettingsClose p
  | ClickDraw rs => on_draw_click rs p
  | ClickStop => on_stop_click p
  | AnimationFinish => on_animation_finish p
  end.

Definition acts (actions : list Action) (p : Page) : Page :=
  foldl (λ p a, act a p) p actions.

(** Every code unit of [text] satisfies [test]. *)
Fixpoint all_chars (test : Ascii.ascii → bool) (text : string) : bool :=
  match text with
  | EmptyString => true
  | String c rest => test c && all_chars test rest
  end.

(** A name as the settings dialog stores it: a single line with something
    else than white space on it. *)
Definition proper_name (name : string) : bool :=
  all_chars (λ c, negb (Ascii.eqb c line_feed)
                  && negb (Ascii.eqb c carriage_return)) name
  && negb (all_chars is_white_space name).

End Host.

(** A page of the host with the engine [s] on it, its text areas empty and
    its check boxes ticked, after the script has shown the active prize. *)
Definition first_page (s : Slot) : Host.Page :=
  Host.showActivePrizeToDraw
    {| Host.slot := s; Host.awaiting := false;
       Host.nameListTextArea := EmptyString;
       Host.prizeListTextArea := EmptyString;
       Host.removeNameFromListCheckbox := true;
       Host.enableSoundCheckbox := true; Host.mute := false;
       Host.settingsShown := false; Host.activePrize := EmptyString;
       Host.winnersListPanel := []; Host.alerts := []; Host.hooks := [] |}.

(** * Properties *)

(** ** Doubles *)

Section DoubleFacts.
Local Open Scope Z_scope.
Implicit Types (p q k n : Z).

Lemma reaches_nonneg p q k :
  0 ≤ k → Double.reaches p q k = true ↔ 2 ^ k * q ≤ p.
Proof.
  intros Hk. unfold Double.reaches.
  destruct (Z.leb_spec 0 k); [|lia]. apply Z.leb_le.
Qed.

Lemma reaches_neg p q k :
  k < 0 → Double.reaches p q k = true ↔ q ≤ p * 2 ^ (- k).
Proof.
  intros Hk. unfold Double.reaches.
  destruct (Z.leb_spec 0 k); [lia|]. apply Z.leb_le.
Qed.

(** [2^exponent ≤ p / q]. *)
Lemma exponent_lower p q :
  0 < p → 0 < q → Double.reaches p q (Double.exponent p q) = true.
Proof.
  intros Hp Hq. unfold Double.exponent.
  destruct (Double.reaches p q (Z.log2 p - Z.log2 q)) eqn:Hd; [done|].
  destruct (Z.log2_spec p Hp) as [Hp1 Hp2].
  destruct (Z.log2_spec q Hq) as [Hq1 Hq2].
  pose proof (Z.log2_nonneg p). pose proof (Z.log2_nonneg q).
  set (a := Z.log2 p) in *. set (b := Z.log2 q) in *.
  destruct (Z.le_gt_cases 0 (a - b - 1)) as [Hk|Hk].
  - apply reaches_nonneg; [done|].
    assert (2 ^ (a - b - 1) * 2 ^ (Z.succ b) = 2 ^ a) as Hpow
      by (rewrite <- Z.pow_add_r by lia; f_equal; lia).
    assert (0 < 2 ^ (a - b - 1)) by (apply Z.pow_pos_nonneg; lia).
    nia.
  - apply reaches_neg; [done|].
    assert (2 ^ a * 2 ^ (- (a - b - 1)) = 2 ^ (Z.succ b)) as Hpow
      by (rewrite <- Z.pow_add_r by lia; f_equal; lia).
    assert (0 < 2 ^ (- (a - b - 1))) by (apply Z.pow_pos_nonneg; lia).
    nia.
Qed.

(** [p / q < 2^(exponent + 1)]. *)
Lemma exponent_upper p q :
  0 < p → 0 < q → Double.reaches p q (Double.exponent p q + 1) = false.
Proof.
  intros Hp Hq. unfold Double.exponent.
  destruct (Double.reaches p q (Z.log2 p - Z.log2 q)) eqn:Hd.
  2: { by replace (Z.log2 p - Z.log2 q - 1 + 1) with (Z.log2 p - Z.log2 q)
         by lia. }
  destruct (Z.log2_spec p Hp) as [Hp1 Hp2].
  destruct (Z.log2_spec q Hq) as [Hq1 Hq2].
  pose proof (Z.log2_nonneg p). pose proof (Z.log2_nonneg q).
  set (a := Z.log2 p) in *. set (b := Z.log2 q) in *.
  apply not_true_is_false. intros Hr.
  destruct (Z.le_gt_cases 0 (a - b + 1)) as [Hk|Hk].
  - apply reaches_nonneg in Hr; [|done].
    assert (2 ^ (a - b + 1) * 2 ^ b = 2 ^ (Z.succ a)) as Hpow
      by (rewrite <- Z.pow_add_r by lia; f_equal; lia).
    assert (0 < 2 ^ (a - b + 1)) by (apply Z.pow_pos_nonneg; lia).
    nia.
  - apply reaches_neg in Hr; [|done].
    assert (2 ^ (Z.succ a) * 2 ^ (- (a - b + 1)) = 2 ^ b) as Hpow
      by (rewrite <- Z.pow_add_r by lia; f_equal; lia).
    assert (0 < 2 ^ (- (a - b + 1))) by (apply Z.pow_pos_nonneg; lia).
    nia.
Qed.

(** The exponent is below [k] when [p / q < 2^k], and at least [k] when
    [2^k ≤ p / q]. *)
Lemma exponent_lt p q k :
  0 < p → 0 < q → 0 ≤ k → p < 2 ^ k * q → Double.exponent p q < k.
Proof.
  intros Hp Hq Hk Hlt.
  pose proof (exponent_lower p q Hp Hq) as Hlow.
  destruct (Z.lt_ge_cases (Double.exponent p q) k) as [|Hge]; [done|].
  apply reaches_nonneg in Hlow; [|lia].
  assert (2 ^ k ≤ 2 ^ Double.exponent p q) by (apply Z.pow_le_mono_r; lia).
  nia.
Qed.

Lemma exponent_ge_minus_one p q :
  0 < p → 0 < q → q ≤ 2 * p → -1 ≤ Double.exponent p q.
Proof.
  intros Hp Hq Hhalf.
  pose proof (exponent_upper p q Hp Hq) as Hup.
  destruct (Z.le_gt_cases (-1) (Double.exponent p q)) as [|Hlt]; [done|].
  exfalso. apply not_true_iff_false in Hup. apply Hup.
  apply reaches_neg; [lia|].
  assert (2 ^ 1 ≤ 2 ^ (- (Double.exponent p q + 1)))
    by (apply Z.pow_le_mono_r; lia).
  change (2 ^ 1) with 2 in *. nia.
Qed.

(** Rounding to the nearest integer errs by at most one half. *)
Lemma nearest_even_bounds a b :
  0 ≤ a → 0 < b →
  let m := Double.nearest_even a b in
  a / b ≤ m ∧ 2 * m * b ≤ 2 * a + b ∧ 2 * a - b ≤ 2 * m * b.
Proof.
  intros Ha Hb. simpl. unfold Double.nearest_even.
  pose proof (Z.div_mod a b ltac:(lia)) as Hdm.
  pose proof (Z.mod_pos_bound a b Hb) as Hr.
  destruct (Z.compare_spec (2 * (a mod b)) b) as [He|Hl|Hg].
  - destruct (Z.even (a / b)); nia.
  - nia.
  - nia.
Qed.

Lemma nearest_even_exact a b :
  0 < b → Double.nearest_even (a * b) b = a.
Proof.
  intros Hb. unfold Double.nearest_even.
  rewrite Z.mod_mul, Z.div_mul by lia.
  destruct (Z.compare_spec (2 * 0) b); lia.
Qed.

(** The unit in the last place of a value below [2^53] is at most 1. *)
Lemma ulp_exponent_nonpos p q :
  0 < p → 0 < q → p < 2 ^ 53 * q → Double.ulp_exponent p q ≤ 0.
Proof.
  intros Hp Hq Hlt. unfold Double.ulp_exponent.
  pose proof (exponent_lt p q 53 Hp Hq ltac:(lia) Hlt). lia.
Qed.

Lemma nearest_small p q :
  Double.ulp_exponent p q ≤ 0 →
  Double.nearest p q =
    Qmake (Double.nearest_even (p * 2 ^ (- Double.ulp_exponent p q)) q)
          (Z.to_pos (2 ^ (- Double.ulp_exponent p q))).
Proof.
  intros He. unfold Double.nearest.
  destruct (Z.leb_spec (Double.ulp_exponent p q) 0); [done | lia].
Qed.

Lemma truncate_make (m s : Z) :
  0 ≤ m → 0 < s → Js.truncate (Qmake m (Z.to_pos s)) = m / s.
Proof.
  intros Hm Hs. unfold Js.truncate. simpl.
  rewrite Z2Pos.id by done. by apply Z.quot_div_nonneg.
Qed.

(** An integer below the value is below the integer part of its double. *)
Lemma truncate_nearest_ge p q (j : Z) :
  0 < p → 0 < q → 0 ≤ j → j * q ≤ p → p < 2 ^ 53 * q →
  j ≤ Js.truncate (Double.nearest p q).
Proof.
  intros Hp Hq Hj Hle Hlt.
  pose proof (ulp_exponent_nonpos p q Hp Hq Hlt) as He.
  rewrite nearest_small by done.
  set (s := 2 ^ (- Double.ulp_exponent p q)).
  assert (Hs : 0 < s) by (apply Z.pow_pos_nonneg; lia).
  destruct (nearest_even_bounds (p * s) q ltac:(nia) Hq) as (Hfloor & _ & _).
  assert (j * s ≤ p * s / q) by (apply Z.div_le_lower_bound; nia).
  rewrite truncate_make by nia.
  apply Z.div_le_lower_bound; nia.
Qed.

(** A value below [j + 1/2] has a double with integer part at most [j]. *)
Lemma truncate_nearest_le p q (j : Z) :
  0 < p → 0 < q → 0 ≤ j → 2 * p < (2 * j + 1) * q → p < 2 ^ 53 * q →
  0 ≤ Js.truncate (Double.nearest p q) ≤ j.
Proof.
  intros Hp Hq Hj Hhalf Hlt.
  pose proof (ulp_exponent_nonpos p q Hp Hq Hlt) as He.
  rewrite nearest_small by done.
  set (s := 2 ^ (- Double.ulp_exponent p q)).
  assert (Hs : 0 < s) by (apply Z.pow_pos_nonneg; lia).
  destruct (nearest_even_bounds (p * s) q ltac:(nia) Hq) as (Hfloor & Hup & _).
  set (m := Double.nearest_even (p * s) q) in *.
  assert (0 ≤ p * s / q) by (apply Z.div_pos; nia).
  rewrite truncate_make by nia.
  split; [apply Z.div_pos; lia|].
  assert (m < (j + 1) * s) by nia.
  assert (m / s < j + 1) by (apply Z.div_lt_upper_bound; nia).
  lia.
Qed.

(** The product of a double below one and a count [n] has a double below
    [n]. *)
Lemma truncate_nearest_lt p q n :
  0 < p → 0 < q → 0 < n → n ≤ 2 ^ 53 →
  p * 2 ^ 53 ≤ n * q * (2 ^ 53 - 1) →
  0 ≤ Js.truncate (Double.nearest p q) < n.
Proof.
  intros Hp Hq Hn Hn53 Hbelow.
  assert (Hlt : p < n * q) by nia.
  assert (Hlt53 : p < 2 ^ 53 * q) by nia.
  pose proof (ulp_exponent_nonpos p q Hp Hq Hlt53) as He.
  rewrite nearest_small by done.
  set (e := Double.ulp_exponent p q) in *.
  set (s := 2 ^ (- e)).
  assert (Hs : 0 < s) by (apply Z.pow_pos_nonneg; lia).
  assert (Hns : 2 ^ 52 < n * s).
  { unfold s, e, Double.ulp_exponent in *.
    pose proof (exponent_lower p q Hp Hq) as Hlow.
    set (k := Double.exponent p q) in *.
    destruct (Z.max_spec (k - 52) (-1074)) as [[_ ->] | [_ ->]].
    - change (- -1074) with 1074.
      assert (2 ^ 52 < 2 ^ 1074) by (apply Z.pow_lt_mono_r; lia). nia.
    - destruct (Z.le_gt_cases 0 k) as [Hk|Hk].
      + apply reaches_nonneg in Hlow; [|done].
        assert (Hk52 : k < 53) by (apply (exponent_lt p q); lia).
        assert (2 ^ k < n) by nia.
        assert (2 ^ k * 2 ^ (- (k - 52)) = 2 ^ 52)
          by (rewrite <- Z.pow_add_r by lia; f_equal; lia).
        assert (0 < 2 ^ (- (k - 52))) by (apply Z.pow_pos_nonneg; lia).
        nia.
      + assert (2 ^ 53 ≤ 2 ^ (- (k - 52))) by (apply Z.pow_le_mono_r; lia).
        assert (2 ^ 52 < 2 ^ 53) by (apply Z.pow_lt_mono_r; lia).
        nia. }
  destruct (nearest_even_bounds (p * s) q ltac:(nia) Hq) as (Hfloor & Hup & _).
  set (m := Double.nearest_even (p * s) q) in *.
  assert (0 ≤ p * s / q) by (apply Z.div_pos; nia).
  rewrite truncate_make by nia.
  split; [apply Z.div_pos; lia|].
  apply Z.div_lt_upper_bound; [done|].
  assert (H1 : 2 * m * q * 2 ^ 53 ≤ (2 * (p * s) + q) * 2 ^ 53) by nia.
  assert (H2 : 2 * (p * 2 ^ 53) * s ≤ 2 * (n * q * (2 ^ 53 - 1)) * s) by nia.
  assert (H3 : q * 2 ^ 53 < 2 * q * (n * s)) by nia.
  assert (H4 : 2 * m * q * 2 ^ 53 < 2 * (s * n) * q * 2 ^ 53) by nia.
  assert (0 < 2 * q * 2 ^ 53) by nia.
  nia.
Qed.

End DoubleFacts.

(** ** The drawn index *)

Section RandomIndexFacts.
Local Open Scope Z_scope.

Lemma to_int32_small (z : Z) : 0 ≤ z < 2 ^ 31 → Js.to_int32 z = z.
Proof.
  intros Hz. unfold Js.to_int32. rewrite Z.mod_small by lia. lia.
Qed.

Lemma round_zero (x : Q) : Qnum x = 0 → Double.round x = 0%Q.
Proof. intros Hx. unfold Double.round. by rewrite Hx. Qed.

Lemma round_pos (x : Q) :
  0 < Qnum x → Double.round x = Double.nearest (Qnum x) (Z.pos (Qden x)).
Proof. intros Hx. unfold Double.round. destruct (Qnum x); done. Qed.

(** A double in [0, 1) is at most [1 - 2^-53]. *)
Lemma representable_below_one (u : Q) :
  Double.representable u → (0 <= u)%Q → (u < 1)%Q →
  Qnum u * 2 ^ 53 ≤ Z.pos (Qden u) * (2 ^ 53 - 1).
Proof.
  unfold Double.representable, Qle, Qlt. simpl.
  intros Hrep H0 H1. rewrite ?Z.mul_1_r in *.
  destruct (Z.le_gt_cases (Z.pos (Qden u)) (2 * Qnum u)) as [Hhalf|Hhalf];
    [|lia].
  assert (Hp : 0 < Qnum u) by lia.
  rewrite round_pos in Hrep by done.
  set (p := Qnum u) in *. set (q := Z.pos (Qden u)) in *.
  assert (Hq : 0 < q) by done.
  assert (Hk : Double.exponent p q = -1).
  { pose proof (exponent_ge_minus_one p q Hp Hq Hhalf).
    pose proof (exponent_lt p q 0 Hp Hq ltac:(lia) ltac:(lia)). lia. }
  assert (He : Double.ulp_exponent p q = -53)
    by (unfold Double.ulp_exponent; rewrite Hk; reflexivity).
  rewrite nearest_small in Hrep by lia. rewrite He in Hrep.
  change (- -53) with 53 in Hrep.
  unfold Qeq in Hrep. cbn [Qnum Qden] in Hrep.
  rewrite Z2Pos.id in Hrep by lia. fold q in Hrep.
  set (m := Double.nearest_even (p * 2 ^ 53) q) in *.
  assert (m < 2 ^ 53) by nia. nia.
Qed.

(** Every multiple of [2^-53] in [0, 1) is a double. *)
Lemma representable_dyadic (m : Z) :
  0 ≤ m < 2 ^ 53 → Double.representable (Qmake m (Z.to_pos (2 ^ 53))).
Proof.
  intros Hm. unfold Double.representable.
  destruct (decide (m = 0)) as [->|Hm0]; [reflexivity|].
  rewrite round_pos by (simpl; lia). cbn [Qnum Qden].
  rewrite Z2Pos.id by lia.
  assert (Hpos : 0 < m) by lia.
  destruct (Z.log2_spec m Hpos) as [Hl1 Hl2].
  pose proof (Z.log2_nonneg m) as Hl0.
  assert (Hl : Z.log2 m < 53).
  { apply Z.log2_lt_pow2; lia. }
  set (l := Z.log2 m) in *.
  assert (Hpow : 2 ^ l * 2 ^ (53 - l) = 2 ^ 53)
    by (rewrite <- Z.pow_add_r by lia; f_equal; lia).
  assert (Hpow' : 0 < 2 ^ (53 - l)) by (apply Z.pow_pos_nonneg; lia).
  assert (Hk : Double.exponent m (2 ^ 53) = l - 53).
  { unfold Double.exponent. rewrite Z.log2_pow2 by lia. fold l.
    assert (Double.reaches m (2 ^ 53) (l - 53) = true) as ->; [|done].
    apply reaches_neg; [lia|]. replace (- (l - 53)) with (53 - l) by lia. nia. }
  assert (He : Double.ulp_exponent m (2 ^ 53) = l - 105)
    by (unfold Double.ulp_exponent; rewrite Hk; lia).
  rewrite nearest_small by lia. rewrite He.
  replace (- (l - 105)) with (52 - l + 53) by lia.
  rewrite Z.pow_add_r by lia.
  rewrite Z.mul_assoc, nearest_even_exact by lia.
  assert (0 < 2 ^ (52 - l)) by (apply Z.pow_pos_nonneg; lia).
  unfold Qeq. cbn [Qnum Qden].
  rewrite !Z2Pos.id by nia. lia.
Qed.

Lemma random_index_zero (u : Q) (n : nat) :
  Qnum u * Z.of_nat n = 0 → random_index u n = 0.
Proof.
  intros Hz. unfold random_index. by rewrite round_zero.
Qed.

Lemma random_index_pos (u : Q) (n : nat) :
  0 < Qnum u * Z.of_nat n →
  random_index u n =
    Js.to_int32 (Js.truncate (Double.nearest (Qnum u * Z.of_nat n)
                                             (Z.pos (Qden u)))).
Proof.
  intros Hp. unfold random_index, Js.bitor0.
  rewrite round_pos by done. cbn [Qnum Qden Qmult inject_Z].
  by rewrite Z.lor_0_r, Pos.mul_1_r.
Qed.

(** [Math.random() * n | 0] is [j] when the product lies in
    [j, j + 1/2). *)
Lemma random_index_between (u : Q) (n : nat) (j : Z) :
  0 ≤ j < 2 ^ 31 →
  j * Z.pos (Qden u) ≤ Qnum u * Z.of_nat n →
  2 * (Qnum u * Z.of_nat n) < (2 * j + 1) * Z.pos (Qden u) →
  random_index u n = j.
Proof.
  intros Hj Hlow Hhigh.
  set (p := Qnum u * Z.of_nat n) in *. set (q := Z.pos (Qden u)) in *.
  assert (Hq : 0 < q) by done.
  destruct (decide (p = 0)) as [Hp|Hp].
  - rewrite random_index_zero by done. nia.
  - assert (Hpos : 0 < p) by nia.
    rewrite random_index_pos by done. fold p q.
    assert (H53 : p < 2 ^ 53 * q) by nia.
    pose proof (truncate_nearest_ge p q j Hpos Hq ltac:(lia) Hlow H53).
    pose proof (truncate_nearest_le p q j Hpos Hq ltac:(lia) Hhigh H53).
    rewrite to_int32_small by lia. lia.
Qed.

(** A double in [0, 1) times a count below 2^53 truncates below the
    count. *)
Lemma truncate_product_lt (u : Q) (n : nat) :
  Double.representable u → (0 <= u)%Q → (u < 1)%Q →
  0 < Qnum u * Z.of_nat n → Z.of_nat n ≤ 2 ^ 53 →
  0 ≤ Js.truncate (Double.nearest (Qnum u * Z.of_nat n) (Z.pos (Qden u)))
    < Z.of_nat n.
Proof.
  intros Hrep H0 H1 Hp Hn.
  pose proof (representable_below_one u Hrep H0 H1) as Hb.
  apply truncate_nearest_lt; [done | done | nia | done | nia].
Qed.

Lemma random_index_range (u : Q) (n : nat) :
  Double.representable u → (0 <= u)%Q → (u < 1)%Q →
  (0 < n)%nat → Z.of_nat n ≤ 2 ^ 31 →
  0 ≤ random_index u n < Z.of_nat n.
Proof.
  intros Hrep H0 H1 Hn Hfit.
  assert (0 ≤ Qnum u) by (unfold Qle in H0; simpl in H0; lia).
  destruct (decide (Qnum u * Z.of_nat n = 0)) as [Hp|Hp].
  - rewrite random_index_zero by done. lia.
  - assert (Hpos : 0 < Qnum u * Z.of_nat n) by nia.
    rewrite random_index_pos by done.
    pose proof (truncate_product_lt u n Hrep H0 H1 Hpos ltac:(lia)).
    rewrite to_int32_small by lia. lia.
Qed.

(** The largest double below one wraps to a negative index from 2^31 + 1
    items on. *)
Lemma random_index_wraps (n : nat) :
  2 ^ 31 < Z.of_nat n < 2 ^ 32 →
  random_index (Qmake (2 ^ 53 - 1) (Z.to_pos (2 ^ 53))) n < 0.
Proof.
  intros Hn.
  set (u := Qmake (2 ^ 53 - 1) (Z.to_pos (2 ^ 53))).
  assert (Hrep : Double.representable u) by (by apply representable_dyadic).
  assert (Hpos : 0 < Qnum u * Z.of_nat n) by (simpl; lia).
  rewrite random_index_pos by done.
  pose proof (truncate_product_lt u n Hrep ltac:(done) ltac:(done) Hpos
                ltac:(lia)) as Hlt.
  pose proof (truncate_nearest_ge (Qnum u * Z.of_nat n) (Z.pos (Qden u))
                (2 ^ 31) Hpos ltac:(done) ltac:(lia)) as Hge.
  cbn [Qnum Qden u] in *. rewrite Z2Pos.id in * by lia.
  specialize (Hge ltac:(lia) ltac:(lia)).
  set (t := Js.truncate _) in *.
  unfold Js.to_int32.
  replace (t + 2 ^ 31) with (t - 2 ^ 31 + 1 * 2 ^ 32) by lia.
  rewrite Z.mod_add, Z.mod_small by lia. lia.
Qed.

End RandomIndexFacts.

(** The rounding of the product decides the index: at the double nearest
    to 2/3 and three items the exact product truncates to 1, and its
    double is 2. *)
Example random_index_rounds :
  let u := (6004799503160661 # 9007199254740992)%Q in
  Double.representable u ∧
  Js.truncate (u * inject_Z 3) = 1%Z ∧
  random_index u 3 = 2%Z.
Proof. by repeat split. Qed.

(** A source within the contract of [Math.random()] draws in range from a
    list of at most 2^31 items. *)
Lemma unit_interval_draws_in_range (rs : RandomSource) (len : nat) :
  unit_interval rs → (Z.of_nat len ≤ 2 ^ 31)%Z → draws_in_range rs len.
Proof.
  intros Hrs Hfit k Hk. destruct (Hrs k) as (Hrep & H0 & H1).
  apply random_index_range; [done | done | done | lia | lia].
Qed.

(** ** shuffleNames *)

Section ShuffleFacts.
Context {T : Type}.
Implicit Types (array a : list T) (st : ShuffleVars T) (rs : RandomSource).

Lemma swap_length a i j : length (swap a i j) = length a.
Proof.
  unfold swap. destruct (a !! i), (a !! j); try done.
  by rewrite !length_insert.
Qed.

Lemma swap_perm a i j : swap a i j ≡ₚ a.
Proof.
  unfold swap.
  destruct (a !! i) as [x|] eqn:Hi, (a !! j) as [y|] eqn:Hj; try done.
  by apply Permutation_insert_swap.
Qed.

(** Reading a swapped list. *)
Lemma swap_lookup a i j p :
  i < length a → j < length a →
  swap a i j !! p =
    if decide (p = j) then a !! i
    else if decide (p = i) then a !! j else a !! p.
Proof.
  intros Hi Hj. unfold swap.
  destruct (lookup_lt_is_Some_2 a i Hi) as [x Hx].
  destruct (lookup_lt_is_Some_2 a j Hj) as [y Hy].
  rewrite Hx, Hy.
  destruct (decide (p = j)) as [->|Hpj].
  - rewrite list_lookup_insert_eq; [done | by rewrite length_insert].
  - rewrite list_lookup_insert_ne by done.
    destruct (decide (p = i)) as [->|Hpi].
    + by rewrite list_lookup_insert_eq.
    + by rewrite list_lookup_insert_ne.
Qed.

Lemma fisher_yates_loop_perm rs n d a : fisher_yates_loop rs n d a ≡ₚ a.
Proof.
  revert d a. induction n as [|n IH]; intros d a; simpl; [done|].
  rewrite IH. apply swap_perm.
Qed.

Lemma fisher_yates_perm array rs : fisher_yates array rs ≡ₚ array.
Proof. apply fisher_yates_loop_perm. Qed.

(** The loop never writes [array], and runs once per element. *)
Lemma shuffle_loop_array rs n st :
  sv_array (shuffle_loop rs n st) = sv_array st.
Proof.
  revert st. induction n as [|n IH]; intros st; simpl; [done|].
  case_decide; [|done]. by rewrite IH.
Qed.

Lemma shuffle_loop_length rs n st :
  sv_k st + n = length (sv_array st) →
  length (sv_result (shuffle_loop rs n st)) = length (sv_result st) + n.
Proof.
  revert st. induction n as [|n IH]; intros st Hk; simpl; [lia|].
  case_decide; [|lia].
  rewrite IH; simpl; [|lia]. rewrite length_app. simpl. lia.
Qed.

Lemma shuffleNames_length array rs :
  length (shuffleNames array rs) = length array.
Proof.
  unfold shuffleNames, shuffle_run.
  by rewrite shuffle_loop_length.
Qed.

Lemma linked_start array :
  linked array (length array)
    {| sv_array := array; sv_keys := object_keys array;
       sv_result := []; sv_k := 0 |} array.
Proof.
  split; simpl; try done.
  - intros j x Hj. exists j. split; [|done].
    apply lookup_lt_Some in Hj. unfold object_keys.
    rewrite decide_True by lia. by rewrite Nat2Z.id.
  - by rewrite drop_all.
Qed.

Lemma linked_body array rs n st a :
  linked array (S n) st a →
  (0 ≤ random_index (rs (sv_k st)) (S n) < Z.of_nat (S n))%Z →
  linked array n (shuffle_body rs n st)
    (swap a n (Z.to_nat (random_index (rs (sv_k st)) (S n)))).
Proof.
  intros [Harr Hk Hlen Hkeys Hres] Hi.
  set (i := random_index (rs (sv_k st)) (S n)) in *.
  assert (Hn : n < length a) by lia.
  assert (Hj : Z.to_nat i < length a) by lia.
  destruct (lookup_lt_is_Some_2 a _ Hj) as [x Hx].
  destruct (Hkeys _ _ Hx) as (key & Hkey & Hsel).
  rewrite Z2Nat.id in Hkey by lia.
  split; simpl.
  - done.
  - lia.
  - by rewrite swap_length.
  - intros p y. rewrite swap_lookup by done. fold i.
    unfold assign. intros Hp.
    destruct (decide (p = Z.to_nat i)) as [->|Hpi].
    + rewrite decide_True by lia. by apply Hkeys.
    + rewrite decide_False by lia.
      destruct (decide (p = n)) as [->|Hpn].
      * rewrite decide_True by done. rewrite Hkey.
        exists key. split; [done|]. congruence.
      * rewrite decide_False by lia. by apply Hkeys.
  - fold i. rewrite Hres, Hkey, Harr. simpl. rewrite Hsel.
    assert (Hd : drop n (swap a n (Z.to_nat i)) = x :: drop (S n) a).
    { apply list_eq. intros [|q].
      - rewrite lookup_drop, Nat.add_0_r, swap_lookup by done.
        simpl. destruct (decide (n = Z.to_nat i)) as [e|?].
        + by rewrite e.
        + by rewrite decide_True.
      - rewrite lookup_drop, swap_lookup by done. simpl.
        rewrite lookup_drop.
        rewrite !decide_False by lia. f_equal. lia. }
    rewrite Hd, reverse_cons, fmap_app. done.
Qed.

Lemma linked_loop array rs n st a :
  linked array n st a →
  (∀ k, sv_k st ≤ k < length array →
     (0 ≤ random_index (rs k) (length array - k)
        < Z.of_nat (length array - k))%Z) →
  linked array 0 (shuffle_loop rs n st) (fisher_yates_loop rs n (sv_k st) a).
Proof.
  revert st a. induction n as [|n IH]; intros st a Hl Hdraw; simpl; [done|].
  pose proof (linked_k _ _ _ _ Hl) as Hk.
  pose proof (linked_array _ _ _ _ Hl) as Harr.
  rewrite Harr. rewrite decide_True by lia.
  assert (Hi : (0 ≤ random_index (rs (sv_k st)) (S n) < Z.of_nat (S n))%Z).
  { replace (S n) with (length array - sv_k st) by lia. apply Hdraw. lia. }
  apply (IH (shuffle_body rs n st)).
  - by apply linked_body.
  - intros k Hk'. apply Hdraw. simpl in Hk'. lia.
Qed.

(** The result of [shuffleNames] read against the reference algorithm. *)
Lemma shuffleNames_reverse array rs :
  draws_in_range rs (length array) →
  shuffleNames array rs = Some <$> reverse (fisher_yates array rs).
Proof.
  intros Hdraw.
  pose proof (linked_loop array rs _ _ _ (linked_start array)) as Hl.
  simpl in Hl. specialize (Hl ltac:(intros k Hk; apply Hdraw; lia)).
  unfold shuffleNames, shuffle_run, fisher_yates.
  by rewrite (linked_result _ _ _ _ Hl), drop_0.
Qed.

Lemma shuffleNames_elements array rs :
  draws_in_range rs (length array) →
  ∃ out, shuffleNames array rs = Some <$> out ∧ out ≡ₚ array.
Proof.
  intros Hdraw. exists (reverse (fisher_yates array rs)). split.
  - by apply shuffleNames_reverse.
  - rewrite reverse_Permutation. apply fisher_yates_perm.
Qed.

End ShuffleFacts.

(** ** Array primitives *)

Section ArrayFacts.
Context {A : Type}.
Implicit Types (l : list A) (p : A → bool).

Lemma index_last l : Js.index l (Z.of_nat (length l) - 1) = last l.
Proof.
  unfold Js.index. rewrite last_lookup.
  destruct l as [|x l]; [done|].
  rewrite decide_False by (simpl; lia).
  f_equal. simpl. lia.
Qed.

Lemma relative_inside len (i : nat) : i ≤ len → Js.relative len (Z.of_nat i) = i.
Proof.
  intros Hi. unfold Js.relative. rewrite decide_False by lia. lia.
Qed.

Lemma relative_minus_one len : Js.relative len (-1) = len - 1.
Proof. unfold Js.relative. rewrite decide_True by lia. lia. Qed.

Lemma slice0_take l (e : Z) :
  (0 ≤ e ≤ Z.of_nat (length l))%Z → Js.slice0 l e = take (Z.to_nat e) l.
Proof.
  intros He. unfold Js.slice0, Js.relative.
  rewrite decide_False by lia. f_equal. lia.
Qed.

Lemma splice1_head l : Js.splice1 l 0 = tail l.
Proof. unfold Js.splice1. by destruct l. Qed.

Lemma findIndex_range p l : (-1 ≤ Js.findIndex p l < Z.of_nat (length l))%Z.
Proof.
  induction l as [|x l IH]; simpl; [lia|].
  destruct (p x); [lia|]. case_decide; lia.
Qed.

(** [findIndex] stops at the first element that satisfies [p]. *)
Lemma findIndex_first p l x :
  x ∈ l → p x = true →
  ∃ i y, Js.findIndex p l = Z.of_nat i ∧ l !! i = Some y ∧ p y = true ∧
         ∀ j z, j < i → l !! j = Some z → p z = false.
Proof.
  intros Hin Hp. induction l as [|a l IH]; [by apply elem_of_nil in Hin|].
  simpl. destruct (p a) eqn:Ha.
  - exists 0, a. repeat split; try done. intros j z Hj. lia.
  - apply elem_of_cons in Hin as [->|Hin]; [congruence|].
    destruct (IH Hin) as (i & y & Hi & Hy & Hpy & Hfirst).
    exists (S i), y. rewrite Hi. rewrite decide_False by lia.
    repeat split; [lia | done | done |].
    intros [|j] z Hj Hz; simpl in Hz; [congruence|].
    apply (Hfirst j); [lia | done].
Qed.

Lemma findIndex_none p l :
  (∀ x, x ∈ l → p x = false) → Js.findIndex p l = (-1)%Z.
Proof.
  induction l as [|a l IH]; intros Hall; simpl; [done|].
  rewrite (Hall a) by apply list_elem_of_here.
  rewrite IH; [done|]. intros x Hx. apply Hall. by apply list_elem_of_further.
Qed.

End ArrayFacts.

(** ** Padding the reel *)

Section PadFacts.
Context {A : Type}.
Implicit Types (l : list A).

Lemma doubled_succ k l : doubled (S k) l = doubled k (l ++ l).
Proof. unfold doubled. by rewrite Nat.iter_succ_r. Qed.

Lemma doubled_elem k l x : x ∈ doubled k l ↔ x ∈ l.
Proof.
  induction k as [|k IH]; [done|].
  unfold doubled in *. simpl. rewrite elem_of_app. tauto.
Qed.

(** With enough fuel the loop leaves by its own condition, after the
    least number of doublings that reaches [max]. *)
Lemma pad_reel_doubled fuel (max : Z) l :
  l ≠ [] → (max ≤ Z.of_nat fuel + Z.of_nat (length l))%Z →
  ∃ k, pad_reel fuel max l = doubled k l ∧
       (max ≤ Z.of_nat (length (doubled k l)))%Z ∧
       ∀ k', k' < k → (Z.of_nat (length (doubled k' l)) < max)%Z.
Proof.
  revert l. induction fuel as [|fuel IH]; intros l Hne Hfuel; simpl.
  - exists 0. split; [done|]. split; [simpl; lia|]. intros k' Hk'. lia.
  - assert (Hlen : length l ≠ 0) by (by destruct l).
    case_decide as Hguard.
    + destruct (IH (l ++ l)) as (k & Hpad & Hmax & Hmin).
      * by destruct l.
      * rewrite length_app. lia.
      * exists (S k). rewrite doubled_succ. split; [done|]. split; [done|].
        intros [|k'] Hk'; [simpl; lia|].
        rewrite doubled_succ. apply Hmin. lia.
    + exists 0. split; [done|]. split; [simpl; lia|]. intros k' Hk'. lia.
Qed.

Lemma pad_reel_exit (max : Z) l :
  let padded := pad_reel (Z.to_nat max) max l in
  length padded = 0 ∨ (max ≤ Z.of_nat (length padded))%Z.
Proof.
  simpl. destruct l as [|x l].
  - left. by destruct (Z.to_nat max).
  - right. destruct (pad_reel_doubled (Z.to_nat max) max (x :: l))
      as (k & -> & Hmax & _); [done | lia | done].
Qed.

End PadFacts.

(** ** spin *)

Section SpinFacts.
Implicit Types (s : Slot) (rs : RandomSource) (how : Ending).

(** A call of [spin()] resolves to [true] exactly when it gets past both
    guards. *)
Lemma spin_true how s rs :
  value (spin how s rs) = true ↔
  nameList s ≠ [] ∧ is_Some (reelContainer s) ∧ is_Some (reelAnimation s).
Proof.
  unfold spin, spin_begin. case_decide as Hlen.
  - simpl. split; [done|]. intros [Hne _]. by destruct (nameList s).
  - assert (nameList s ≠ []) by (intros E; by rewrite E in Hlen).
    destruct (reelContainer s), (reelAnimation s); destruct how; simpl;
      split; try done; intros (_ & Hc & Ha);
      try (by destruct Hc); by destruct Ha.
Qed.

(** The lists a successful spin leaves. *)
Lemma spin_after how s rs :
  value (spin how s rs) = true →
  let s' := after (spin how s rs) in
  let winner := last_item (populate s rs) in
  randomNames s' = populate s rs ∧
  winnerList s' = addWinner winner (getActivePrizeToDraw s) (winnerList s) ∧
  prizeList s' = Js.splice1 (prizeList s) 0 ∧
  nameList s' =
    (if shouldRemoveWinner s
     then Js.splice1 (nameList s)
            (Js.findIndex (λ name, Js.strict_eq name winner) (nameList s))
     else nameList s).
Proof.
  unfold spin, spin_begin. case_decide; [done|].
  destruct (reelContainer s), (reelAnimation s); destruct how; simpl; done.
Qed.

(** The hooks of a successful spin: the start hook, then the end hook once
    when the animation ends by itself, and twice when it is stopped, once by
    [forceStopSpin] and once by the resumed [spin]. *)
Lemma spin_fired how s rs :
  value (spin how s rs) = true →
  fired (spin how s rs) =
    call_hook (onSpinStart s) SpinStartHook ++
    match how with
    | Natural => call_hook (onSpinEnd s) SpinEndHook
    | Forced => call_hook (onSpinEnd s) SpinEndHook ++
                call_hook (onSpinEnd s) SpinEndHook
    end.
Proof.
  unfold spin, spin_begin. case_decide; [done|].
  destruct (reelContainer s), (reelAnimation s); destruct how; simpl; done.
Qed.

Lemma getActivePrizeToDraw_head s :
  getActivePrizeToDraw s = active_prize (prizeList s).
Proof. unfold getActivePrizeToDraw. by destruct (prizeList s). Qed.

Lemma pad_reel_elem {A} fuel (max : Z) (l : list A) x :
  x ∈ pad_reel fuel max l → x ∈ l.
Proof.
  revert l. induction fuel as [|fuel IH]; intros l; simpl; [done|].
  case_decide; [|done]. intros Hx. apply IH, elem_of_app in Hx. tauto.
Qed.

(** Every reel item is one of the names drawn from. *)
Lemma populate_drawn s rs :
  draws_in_range rs (length (nameList s)) →
  Forall (drawn_from (nameList s)) (populate s rs).
Proof.
  intros Hdraw.
  destruct (shuffleNames_elements (nameList s) rs Hdraw) as (out & Hout & Hperm).
  apply Forall_forall. intros item Hitem. unfold populate, Js.slice0 in Hitem.
  apply elem_of_take in Hitem as (i & Hitem & _).
  apply list_elem_of_lookup_2, pad_reel_elem in Hitem.
  rewrite Hout in Hitem. apply list_elem_of_fmap in Hitem as (name & -> & Hname).
  exists name. split; [done|]. by rewrite <- Hperm.
Qed.

(** With at least one reel item configured, the reel is a prefix of the
    padded shuffle of exactly the configured length, less one when a
    previous winner is displayed. *)
Lemma populate_doubled s rs :
  nameList s ≠ [] → (1 ≤ maxReelItems s)%Z →
  ∃ k,
    let padded := doubled k (shuffleNames (nameList s) rs) in
    (maxReelItems s ≤ Z.of_nat (length padded))%Z ∧
    (∀ k', k' < k →
       (Z.of_nat (length (doubled k' (shuffleNames (nameList s) rs)))
          < maxReelItems s)%Z) ∧
    populate s rs =
      take (Z.to_nat (maxReelItems s - Js.Number (havePreviousWinner s)))
           padded ∧
    Z.of_nat (length (populate s rs)) =
      (maxReelItems s - Js.Number (havePreviousWinner s))%Z.
Proof.
  intros Hne Hmax.
  assert (Hsh : shuffleNames (nameList s) rs ≠ []).
  { intros E. apply (f_equal length) in E.
    rewrite shuffleNames_length in E. by destruct (nameList s). }
  destruct (pad_reel_doubled (Z.to_nat (maxReelItems s)) (maxReelItems s)
              _ Hsh ltac:(lia)) as (k & Hpad & Hreach & Hleast).
  exists k. simpl. split; [done|]. split; [done|].
  assert (Hnum : (0 ≤ Js.Number (havePreviousWinner s) ≤ 1)%Z)
    by (destruct (havePreviousWinner s); simpl; lia).
  assert (Hpop : populate s rs =
      take (Z.to_nat (maxReelItems s - Js.Number (havePreviousWinner s)))
           (doubled k (shuffleNames (nameList s) rs))).
  { unfold populate. rewrite Hpad. apply slice0_take. lia. }
  split; [done|]. rewrite Hpop, length_take. lia.
Qed.

(** The winner of a non-empty reel is its last item, one of the names. *)
Lemma last_item_drawn s rs :
  draws_in_range rs (length (nameList s)) →
  populate s rs ≠ [] →
  ∃ name, last (populate s rs) = Some (Some name) ∧
          last_item (populate s rs) = Some name ∧
          name ∈ nameList s.
Proof.
  intros Hdraw Hne.
  pose proof (populate_drawn s rs Hdraw) as Hall.
  unfold last_item. rewrite index_last.
  destruct (last (populate s rs)) as [item|] eqn:Hlast.
  - rewrite Forall_forall in Hall.
    destruct (Hall item) as (name & -> & Hname).
    { rewrite last_lookup in Hlast. by eapply list_elem_of_lookup_2. }
    by exists name.
  - by apply last_None in Hlast.
Qed.

(** Removing the winner of a non-empty reel removes its first occurrence
    in the name list. *)
Lemma splice_winner (names : list string) (name : string) :
  name ∈ names →
  ∃ i, names !! i = Some name ∧
       (∀ j, j < i → names !! j ≠ Some name) ∧
       Js.splice1 names
         (Js.findIndex (λ x, Js.strict_eq x (Some name)) names)
       = delete i names.
Proof.
  intros Hin.
  destruct (findIndex_first (λ x, Js.strict_eq x (Some name)) names name Hin)
    as (i & y & Hi & Hy & Hpy & Hfirst).
  { simpl. by apply bool_decide_eq_true. }
  simpl in Hpy. apply bool_decide_eq_true in Hpy as ->.
  exists i. split; [done|]. split.
  - intros j Hj Hjn. specialize (Hfirst j name Hj Hjn). simpl in Hfirst.
    by apply bool_decide_eq_false in Hfirst.
  - unfold Js.splice1. rewrite Hi, relative_inside; [done|].
    apply lookup_lt_Some in Hy. lia.
Qed.

(** A successful spin whose reel is not empty logs its last item, a name
    of the list, under the active prize. *)
Lemma spin_logs_winner how s rs :
  value (spin how s rs) = true →
  draws_in_range rs (length (nameList s)) →
  populate s rs ≠ [] →
  let s' := after (spin how s rs) in
  ∃ name, last (randomNames s') = Some (Some name) ∧
          name ∈ nameList s ∧
          winnerList s' =
            winnerList s ++ [active_prize (prizeList s) +:+ " - " +:+ name].
Proof.
  intros Hok Hdraw Hne. simpl.
  destruct (spin_after how s rs Hok) as (Hreel & Hlog & _).
  destruct (last_item_drawn s rs Hdraw Hne) as (name & Hlast & Hwin & Hin).
  exists name. rewrite Hreel, Hlog, Hwin, getActivePrizeToDraw_head.
  done.
Qed.

(** With removal enabled it then deletes the first occurrence of that
    name, and nothing else. *)
Lemma spin_removes_winner how s rs :
  value (spin how s rs) = true →
  draws_in_range rs (length (nameList s)) →
  populate s rs ≠ [] →
  shouldRemoveWinner s = true →
  let s' := after (spin how s rs) in
  ∃ i name, last (randomNames s') = Some (Some name) ∧
            nameList s !! i = Some name ∧
            (∀ j, j < i → nameList s !! j ≠ Some name) ∧
            nameList s' = delete i (nameList s) ∧
            length (nameList s') = length (nameList s) - 1.
Proof.
  intros Hok Hdraw Hne Hrm. simpl.
  destruct (spin_after how s rs Hok) as (Hreel & _ & _ & Hnames).
  destruct (last_item_drawn s rs Hdraw Hne) as (name & Hlast & Hwin & Hin).
  destruct (splice_winner (nameList s) name Hin) as (i & Hi & Hfirst & Hdel).
  exists i, name. rewrite Hreel, Hnames, Hrm, Hwin, Hdel.
  repeat split; try done.
  rewrite length_delete; [done|]. by eexists.
Qed.

Lemma spin_keeps_names how s rs :
  value (spin how s rs) = true →
  shouldRemoveWinner s = false →
  nameList (after (spin how s rs)) = nameList s.
Proof.
  intros Hok Hrm.
  destruct (spin_after how s rs Hok) as (_ & _ & _ & Hnames).
  by rewrite Hnames, Hrm.
Qed.

End SpinFacts.

(** ** The scenarios *)

Lemma low_unit_interval : unit_interval Scenario.low.
Proof. intros k. by split; [|split]. Qed.

Lemma half_unit_interval : unit_interval Scenario.half.
Proof. intros k. by split; [|split]. Qed.

(** A source that honours the contract of [Math.random()] draws in range
    from the short lists of the scenarios. *)
Ltac draws_by_contract H :=
  apply unit_interval_draws_in_range; [apply H | simpl; lia].

(** The concrete scenario of the specification: one draw on Alice, Bob and
    Carol for the single prize Gold, with a reel of three items. *)
Example gala_draw :
  let r := Scenario.first_draw Scenario.gala Scenario.half in
  value r = true ∧
  randomNames (after r) = [Some "Bob"; Some "Carol"; Some "Alice"] ∧
  winnerList (after r) = ["Gold - Alice"] ∧
  nameList (after r) = ["Bob"; "Carol"] ∧
  prizeList (after r) = [] ∧
  getActivePrizeToDraw (after r) = "-------" ∧
  reelContainer (after r) = Some [Dom.ReelItem "Alice"].
Proof. repeat split; reflexivity. Qed.

(** The scenario states are the ones the constructor and the setters build. *)
Lemma fresh_constructed (maxReelItems : Z) (removeWinner : bool) :
  (0 ≤ maxReelItems)%Z →
  constructor Scenario.page (Scenario.configuration maxReelItems removeWinner)
  = inr (Scenario.fresh maxReelItems removeWinner).
Proof.
  intros Hmax. unfold constructor, Dom.animate. simpl.
  by rewrite decide_False by lia.
Qed.

(** * The claims of the specification *)

(** ** Shuffle *)

(** C3. Whenever the drawn indices lie in their ranges, [shuffleNames]
    returns a list holding exactly the elements of its input, each as often
    as the input holds it, and so of the same length; the input array is the
    same after the call; the empty input gives the empty output. *)
Theorem shuffleNames_same_elements {T} (array : list T) (rs : RandomSource) :
  draws_in_range rs (length array) →
  ∃ out,
    shuffleNames array rs = Some <$> out ∧
    out ≡ₚ array ∧
    length out = length array ∧
    sv_array (shuffle_run array rs) = array ∧
    (array = [] → out = []).
Proof.
  intros Hdraw.
  destruct (shuffleNames_elements array rs Hdraw) as (out & Hout & Hperm).
  exists out. split; [done|]. split; [done|].
  split; [by apply Permutation_length|].
  split.
  - unfold shuffle_run. by rewrite shuffle_loop_array.
  - intros ->. by apply Permutation_nil_r.
Qed.

Lemma shuffleNames_same_elements_witness :
  ∃ out,
    shuffleNames ["Alice"; "Bob"; "Bob"] Scenario.half = Some <$> out ∧
    out ≡ₚ ["Alice"; "Bob"; "Bob"] ∧
    length out = 3 ∧
    sv_array (shuffle_run ["Alice"; "Bob"; "Bob"] Scenario.half)
      = ["Alice"; "Bob"; "Bob"] ∧
    (["Alice"; "Bob"; "Bob"] = [] → out = []).
Proof.
  apply (shuffleNames_same_elements ["Alice"; "Bob"; "Bob"] Scenario.half).
  draws_by_contract half_unit_interval.
Defined.

(** C9, as the code has it. Given the same draws, [shuffleNames] returns the
    result of the reference Fisher–Yates algorithm read from its last
    position to its first: the code appends each drawn element to a fresh
    result, where the reference stores it at the current index of the
    working copy. *)
Theorem shuffleNames_reverse_fisher_yates {T} (array : list T)
    (rs : RandomSource) :
  draws_in_range rs (length array) →
  shuffleNames array rs = Some <$> reverse (fisher_yates array rs).
Proof. apply shuffleNames_reverse. Qed.

Lemma shuffleNames_reverse_fisher_yates_witness :
  shuffleNames ["Alice"; "Bob"; "Carol"; "Dan"] Scenario.half
  = Some <$> reverse (fisher_yates ["Alice"; "Bob"; "Carol"; "Dan"] Scenario.half).
Proof.
  apply (shuffleNames_reverse_fisher_yates
           ["Alice"; "Bob"; "Carol"; "Dan"] Scenario.half).
  draws_by_contract half_unit_interval.
Defined.

(** C9, as the specification states it, fails: with every draw equal to 0
    the code returns Alice, Carol, Bob, and the reference algorithm Bob,
    Carol, Alice. *)
Lemma shuffleNames_is_not_fisher_yates :
  draws_in_range Scenario.low 3 ∧
  shuffleNames ["Alice"; "Bob"; "Carol"] Scenario.low
    = [Some "Alice"; Some "Carol"; Some "Bob"] ∧
  fisher_yates ["Alice"; "Bob"; "Carol"] Scenario.low
    = ["Bob"; "Carol"; "Alice"] ∧
  shuffleNames ["Alice"; "Bob"; "Carol"] Scenario.low
    ≠ Some <$> fisher_yates ["Alice"; "Bob"; "Carol"] Scenario.low.
Proof.
  split.
  { draws_by_contract low_unit_interval. }
  split; [reflexivity|]. split; [reflexivity|]. discriminate.
Qed.

(** ** Reel population *)

(** C2. On a non-empty name list, with at least one reel item configured
    and the reel container and its animation at hand, [spin()] succeeds and
    the reel it populates is the shuffled list doubled until it holds at
    least [maxReelItems] items, cut to exactly [maxReelItems] items when no
    previous winner is displayed and to exactly [maxReelItems - 1] when one
    is; each item is a name of the list as it was before the spin. *)
Theorem spin_reel_population (how : Ending) (s : Slot) (rs : RandomSource) :
  nameList s ≠ [] →
  (1 ≤ maxReelItems s)%Z →
  is_Some (reelContainer s) →
  is_Some (reelAnimation s) →
  draws_in_range rs (length (nameList s)) →
  value (spin how s rs) = true ∧
  randomNames (after (spin how s rs)) = populate s rs ∧
  ∃ k,
    let reel := randomNames (after (spin how s rs)) in
    let shuffled := shuffleNames (nameList s) rs in
    let kept :=
      if havePreviousWinner s then (maxReelItems s - 1)%Z else maxReelItems s in
    (maxReelItems s ≤ Z.of_nat (length (doubled k shuffled)))%Z ∧
    (∀ k', k' < k →
       (Z.of_nat (length (doubled k' shuffled)) < maxReelItems s)%Z) ∧
    reel = take (Z.to_nat kept) (doubled k shuffled) ∧
    Z.of_nat (length reel) = kept ∧
    Forall (drawn_from (nameList s)) reel.
Proof.
  intros Hne Hmax Hc Ha Hdraw.
  assert (Hok : value (spin how s rs) = true) by (by apply spin_true).
  destruct (spin_after how s rs Hok) as (Hreel & _).
  split; [done|]. split; [done|].
  destruct (populate_doubled s rs Hne Hmax) as (k & Hreach & Hleast & Hpop & Hlen).
  exists k. simpl. rewrite Hreel.
  assert (Hkept : (maxReelItems s - Js.Number (havePreviousWinner s))%Z =
            if havePreviousWinner s then (maxReelItems s - 1)%Z
            else maxReelItems s)
    by (destruct (havePreviousWinner s); simpl; lia).
  rewrite <- Hkept.
  repeat split; try done.
  by apply populate_drawn.
Qed.

Lemma spin_reel_population_witness :
  let s := Scenario.pair in
  value (spin Natural s Scenario.half) = true ∧
  randomNames (after (spin Natural s Scenario.half))
    = populate s Scenario.half ∧
  ∃ k,
    let reel := randomNames (after (spin Natural s Scenario.half)) in
    let shuffled := shuffleNames (nameList s) Scenario.half in
    (5 ≤ Z.of_nat (length (doubled k shuffled)))%Z ∧
    (∀ k', k' < k → (Z.of_nat (length (doubled k' shuffled)) < 5)%Z) ∧
    reel = take 5 (doubled k shuffled) ∧
    Z.of_nat (length reel) = 5%Z ∧
    Forall (drawn_from ["Alice"; "Bob"]) reel.
Proof.
  apply (spin_reel_population Natural Scenario.pair Scenario.half).
  - discriminate.
  - simpl. lia.
  - by eexists.
  - by eexists.
  - apply unit_interval_draws_in_range; [apply half_unit_interval | simpl; lia].
Defined.




(** ** Winner, name list and prize queue *)

(** C1 at the input where the code departs from it: with one reel item
    configured and winners kept, the second draw on Alice and Bob resolves
    to [true] on an empty reel and logs the text of [undefined], which is
    no name of the list, as the winner of the second prize. *)
Theorem spin_second_draw_logs_undefined :
  let first := Scenario.first_draw Scenario.keeping Scenario.half in
  let second := Scenario.second_draw Scenario.keeping Scenario.half in
  value first = true ∧
  winnerList (after first) = ["Gold - Bob"] ∧
  nameList (after first) = ["Alice"; "Bob"] ∧
  havePreviousWinner (after first) = true ∧
  maxReelItems (after first) = 1%Z ∧
  value second = true ∧
  randomNames (after second) = [] ∧
  winnerList (after second) = ["Gold - Bob"; "Silver - undefined"] ∧
  "undefined" ∉ nameList (after first).
Proof.
  repeat split; try reflexivity.
  intros Hin. simpl in Hin.
  repeat (apply elem_of_cons in Hin as [Hin|Hin]; [discriminate|]).
  by apply elem_of_nil in Hin.
Qed.

(** C4 at the input where the code departs from it: with one reel item
    configured and winners removed, the second draw has no winner to look
    up, [findIndex] answers [-1] and [splice(-1, 1)] removes the last name,
    Carol, while the log names [undefined]. *)
Theorem spin_second_draw_removes_last_name :
  let first := Scenario.first_draw Scenario.removing Scenario.low in
  let second := Scenario.second_draw Scenario.removing Scenario.low in
  shouldRemoveWinner Scenario.removing = true ∧
  value first = true ∧
  winnerList (after first) = ["Gold - Alice"] ∧
  nameList (after first) = ["Bob"; "Carol"] ∧
  value second = true ∧
  last_item (randomNames (after second)) = None ∧
  Js.findIndex (λ name, Js.strict_eq name None) ["Bob"; "Carol"] = (-1)%Z ∧
  winnerList (after second) = ["Gold - Alice"; "Silver - undefined"] ∧
  nameList (after second) = ["Bob"].
Proof. repeat split; reflexivity. Qed.

(** C8. A successful spin removes the head of the prize queue, whatever the
    winner-removal setting, and leaves the queue as it was only when it was
    empty; the entry it logs starts with the head the queue had before, or
    with the placeholder when the queue was empty. *)
Theorem spin_consumes_prize (how : Ending) (s : Slot) (rs : RandomSource) :
  value (spin how s rs) = true →
  let s' := after (spin how s rs) in
  prizeList s' = tail (prizeList s) ∧
  (prizeList s' = prizeList s ↔ prizeList s = []) ∧
  winnerList s' =
    winnerList s ++
      [active_prize (prizeList s) +:+ " - "
         +:+ Js.to_string (last_item (randomNames s'))] ∧
  (∀ removeWinner,
     prizeList (after (spin how
       (set_shouldRemoveWinnerFromNameList removeWinner s) rs))
     = tail (prizeList s)).
Proof.
  intros Hok. simpl.
  destruct (spin_after how s rs Hok) as (Hreel & Hlog & Hprizes & _).
  rewrite Hprizes, splice1_head, Hlog, Hreel, getActivePrizeToDraw_head.
  split; [done|]. split; [|split; [done|]].
  - split.
    + intros E. apply (f_equal length) in E.
      destruct (prizeList s); [done | simpl in E; lia].
    + by intros ->.
  - intros removeWinner.
    set (s1 := set_shouldRemoveWinnerFromNameList removeWinner s).
    assert (Hok1 : value (spin how s1 rs) = true).
    { apply spin_true. by apply spin_true in Hok. }
    destruct (spin_after how s1 rs Hok1) as (_ & _ & -> & _).
    apply splice1_head.
Qed.

Lemma spin_consumes_prize_witness :
  let s := Scenario.gala in
  let s' := after (spin Forced s Scenario.half) in
  prizeList s' = tail (prizeList s) ∧
  (prizeList s' = prizeList s ↔ prizeList s = []) ∧
  winnerList s' =
    winnerList s ++
      [active_prize (prizeList s) +:+ " - "
         +:+ Js.to_string (last_item (randomNames s'))] ∧
  (∀ removeWinner,
     prizeList (after (spin Forced
       (set_shouldRemoveWinnerFromNameList removeWinner s) Scenario.half))
     = tail (prizeList s)).
Proof.
  apply (spin_consumes_prize Forced Scenario.gala Scenario.half).
  reflexivity.
Defined.

(** ** Failure and forced stop *)

(** C5. On an empty name list [spin()] resolves to [false]; the engine is
    left as it was, with its name list, prize queue, winner log,
    previous-winner flag and animation state, and neither [onSpinStart] nor
    [onSpinEnd] is called: the only effect is the error message. *)
Theorem spin_empty_name_list (how : Ending) (s : Slot) (rs : RandomSource) :
  nameList s = [] →
  (spin how s rs =
     {| after := s;
        fired := [ConsoleError "Name List is empty. Cannot start spinning."];
        value := false |}) ∧
  (SpinStartHook ∉ fired (spin how s rs)) ∧
  (SpinEndHook ∉ fired (spin how s rs)).
Proof.
  intros Hempty.
  assert (Hrun : spin how s rs =
    {| after := s;
       fired := [ConsoleError "Name List is empty. Cannot start spinning."];
       value := false |}).
  { unfold spin, spin_begin. rewrite Hempty. by destruct how. }
  rewrite Hrun. simpl.
  repeat split; intros Hin; apply list_elem_of_singleton in Hin; discriminate.
Qed.

Lemma spin_empty_name_list_witness :
  let s := Scenario.fresh 30 true in
  (spin Natural s Scenario.half =
     {| after := s;
        fired := [ConsoleError "Name List is empty. Cannot start spinning."];
        value := false |}) ∧
  (SpinStartHook ∉ fired (spin Natural s Scenario.half)) ∧
  (SpinEndHook ∉ fired (spin Natural s Scenario.half)).
Proof.
  apply (spin_empty_name_list Natural (Scenario.fresh 30 true) Scenario.half).
  reflexivity.
Defined.

Lemma keep_last_child_drop (children : list Dom.Element) :
  Dom.keep_last_child children = drop (length children - 1) children.
Proof.
  unfold Dom.keep_last_child. destruct children as [|c children]; [done|].
  rewrite slice0_take by (simpl; lia).
  rewrite length_take. f_equal. simpl. lia.
Qed.

Lemma keep_last_child_again (children : list Dom.Element) :
  Dom.keep_last_child (Dom.keep_last_child children)
  = Dom.keep_last_child children.
Proof.
  rewrite !keep_last_child_drop, length_drop.
  replace (length children - (length children - 1) - 1) with 0 by lia.
  done.
Qed.

(** C6, as the code has it. [forceStopSpin()] looks at no spin state: in
    every state of an engine with a reel container, spinning or not, it
    finishes the animation, keeps only the last reel item, sets the
    previous-winner flag, calls [onSpinEnd] once if it is configured, and
    leaves the name list, the prize queue and the winner log alone. A
    second call leaves the state the first one left and calls [onSpinEnd]
    once more. When the call stops a spin that waits for its animation, the
    call settles the reel and calls the end hook once; the stopped spin then
    runs its own settle steps, which leave the state the call left and call
    [onSpinEnd] a second time. *)
Theorem forceStopSpin_settles (s : Slot) (children : list Dom.Element) :
  reelContainer s = Some children →
  let r := forceStopSpin s in
  let again := forceStopSpin (after r) in
  value r = inr true ∧
  fired r = (if onSpinEnd s then [SpinEndHook] else []) ∧
  havePreviousWinner (after r) = true ∧
  reelContainer (after r) = Some (drop (length children - 1) children) ∧
  reelAnimation (after r) = (λ _, AnimFinished) <$> reelAnimation s ∧
  (reelAnimation s = Some AnimRunning →
   reelAnimation (after r) = Some AnimFinished) ∧
  nameList (after r) = nameList s ∧
  prizeList (after r) = prizeList s ∧
  winnerList (after r) = winnerList s ∧
  randomNames (after r) = randomNames s ∧
  onSpinEnd (after r) = onSpinEnd s ∧
  after again = after r ∧
  value again = inr true ∧
  fired again = (if onSpinEnd s then [SpinEndHook] else []) ∧
  (∀ s0 rs,
     value (spin_begin s0 rs) = Awaiting →
     after (spin_begin s0 rs) = s →
     spin Forced s0 rs =
       {| after := after r;
          fired := fired (spin_begin s0 rs) ++ fired r ++ fired r;
          value := true |}).
Proof.
  intros Hc.
  assert (Hagain : settle (Dom.keep_last_child children) (settle children s)
                   = settle children s).
  { unfold settle. simpl. rewrite keep_last_child_again.
    by destruct (reelAnimation s). }
  unfold forceStopSpin. rewrite Hc. simpl.
  rewrite keep_last_child_drop.
  repeat split; try done.
  - by intros ->.
  - by rewrite <- keep_last_child_drop.
  - intros s0 rs Hwait Hs0. unfold spin. rewrite Hwait, Hs0.
    unfold forceStopSpin, spin_resume. rewrite Hc. simpl.
    by rewrite Hagain.
Qed.

Lemma forceStopSpin_settles_witness :
  let s := after (spin_begin Scenario.gala Scenario.half) in
  let r := forceStopSpin s in
  let again := forceStopSpin (after r) in
  value r = inr true ∧
  fired r = (if onSpinEnd s then [SpinEndHook] else []) ∧
  havePreviousWinner (after r) = true ∧
  reelContainer (after r) =
    Some (drop (3 - 1) [Dom.ReelItem "Bob"; Dom.ReelItem "Carol";
                        Dom.ReelItem "Alice"]) ∧
  reelAnimation (after r) = (λ _, AnimFinished) <$> reelAnimation s ∧
  (reelAnimation s = Some AnimRunning →
   reelAnimation (after r) = Some AnimFinished) ∧
  nameList (after r) = nameList s ∧
  prizeList (after r) = prizeList s ∧
  winnerList (after r) = winnerList s ∧
  randomNames (after r) = randomNames s ∧
  onSpinEnd (after r) = onSpinEnd s ∧
  after again = after r ∧
  value again = inr true ∧
  fired again = (if onSpinEnd s then [SpinEndHook] else []) ∧
  (∀ s0 rs,
     value (spin_begin s0 rs) = Awaiting →
     after (spin_begin s0 rs) = s →
     spin Forced s0 rs =
       {| after := after r;
          fired := fired (spin_begin s0 rs) ++ fired r ++ fired r;
          value := true |}).
Proof.
  apply (forceStopSpin_settles
           (after (spin_begin Scenario.gala Scenario.half))
           [Dom.ReelItem "Bob"; Dom.ReelItem "Carol"; Dom.ReelItem "Alice"]).
  reflexivity.
Defined.

(** C6, as the specification states it, fails in both halves. On a newly
    constructed engine, whose animation is idle, [forceStopSpin()] calls
    [onSpinEnd], sets the previous-winner flag and finishes the animation;
    on a settled engine it calls [onSpinEnd] again. And a spin in progress
    that is stopped has [onSpinEnd] called twice, once by
    [forceStopSpin()] and once by the [spin()] it stopped. *)
Lemma forceStopSpin_idle_is_not_a_no_op :
  let idle := Scenario.fresh 30 true in
  let settled := after (Scenario.first_draw Scenario.gala Scenario.half) in
  let spinning := spin_begin Scenario.gala Scenario.half in
  reelAnimation idle = Some AnimIdle ∧
  fired (forceStopSpin idle) = [SpinEndHook] ∧
  havePreviousWinner idle = false ∧
  havePreviousWinner (after (forceStopSpin idle)) = true ∧
  reelAnimation (after (forceStopSpin idle)) = Some AnimFinished ∧
  after (forceStopSpin idle) ≠ idle ∧
  reelAnimation settled = Some AnimFinished ∧
  fired (forceStopSpin settled) = [SpinEndHook] ∧
  value spinning = Awaiting ∧
  reelAnimation (after spinning) = Some AnimRunning ∧
  fired (forceStopSpin (after spinning)) = [SpinEndHook] ∧
  fired (spin Forced Scenario.gala Scenario.half)
    = [SpinStartHook; SpinEndHook; SpinEndHook].
Proof. repeat split; try reflexivity. discriminate. Qed.

(** ** Construction *)

(** C7, as the code has it. The constructor does not check [maxReelItems]:
    it stores the configured value (30 when none is given). It fails
    exactly when [querySelector] throws, whatever [maxReelItems] is, or
    when a reel container is found and [maxReelItems] is negative, because
    creating the reel animation with the negative duration
    [maxReelItems * 50] throws. When [querySelector] answers, it succeeds
    for every value from 0 on, and for every value at all when no reel
    container is found. *)
Theorem constructor_validation (document : Dom.Document)
    (cfg : SlotConfigurations) :
  let configured := default 30%Z (cfg_maxReelItems cfg) in
  let found := document (cfg_reelContainerSelector cfg) in
  (∀ e, constructor document cfg = inl e ↔
        found = inl e ∨
        (∃ children, found = inr (Some children)) ∧
        (configured < 0)%Z ∧ e = TypeError) ∧
  (∀ container,
     found = inr container →
     (0 ≤ configured)%Z ∨ container = None →
     ∃ s, constructor document cfg = inr s ∧ maxReelItems s = configured ∧
          reelContainer s = container ∧
          nameList s = [] ∧ prizeList s = [] ∧ winnerList s = [] ∧
          havePreviousWinner s = false).
Proof.
  simpl. unfold constructor, Dom.animate.
  destruct (document (cfg_reelContainerSelector cfg)) as [e0|[children|]].
  - split.
    + intros e. split.
      * intros [= <-]. by left.
      * intros [[= <-] | ([children Hc] & _)]; done.
    + intros container [=].
  - case_decide as Hneg.
    + split.
      * intros e. split.
        -- intros [= <-]. right. split; [by eexists | split; [lia | done]].
        -- intros [[=] | (_ & _ & ->)]. done.
      * intros container [= <-] [? | [=]]. lia.
    + split.
      * intros e. split; [done|]. intros [[=] | (_ & ? & _)]. lia.
      * intros container [= <-] _. eexists. by repeat split.
  - split.
    + intros e. split; [done|]. intros [[=] | ([children [=]] & _)].
    + intros container [= <-] _. eexists. by repeat split.
Qed.

Lemma constructor_validation_witness :
  let cfg := Scenario.configuration 0 true in
  let configured := default 30%Z (cfg_maxReelItems cfg) in
  let found := Scenario.page (cfg_reelContainerSelector cfg) in
  (∀ e, constructor Scenario.page cfg = inl e ↔
        found = inl e ∨
        (∃ children, found = inr (Some children)) ∧
        (configured < 0)%Z ∧ e = TypeError) ∧
  (∀ container,
     found = inr container →
     (0 ≤ configured)%Z ∨ container = None →
     ∃ s, constructor Scenario.page cfg = inr s ∧ maxReelItems s = configured ∧
          reelContainer s = container ∧
          nameList s = [] ∧ prizeList s = [] ∧ winnerList s = [] ∧
          havePreviousWinner s = false).
Proof.
  exact (constructor_validation Scenario.page (Scenario.configuration 0 true)).
Defined.

(** C7, as the specification states it, fails: the configuration with
    [maxReelItems = 0] is accepted, and so is [maxReelItems = -5] on a page
    without reel container. What is rejected on the scenario page is
    [maxReelItems = -5], by the animation, and the selector that is none,
    by [querySelector], also with three reel items. *)
Lemma constructor_accepts_zero_items :
  (0 < 1)%Z ∧
  constructor Scenario.page (Scenario.configuration 0 true)
    = inr (Scenario.fresh 0 true) ∧
  (-5 < 1)%Z ∧
  (∃ s, constructor (λ _, inr None) (Scenario.configuration (-5) true) = inr s ∧
        maxReelItems s = (-5)%Z) ∧
  constructor Scenario.page (Scenario.configuration (-5) true)
    = inl TypeError ∧
  constructor Scenario.page
    {| cfg_maxReelItems := Some 3%Z; cfg_removeWinner := None;
       cfg_reelContainerSelector := EmptyString;
       cfg_onSpinStart := false; cfg_onSpinEnd := false;
       cfg_onNameListChanged := false |}
    = inl SyntaxError.
Proof.
  split; [lia|]. split; [reflexivity|]. split; [lia|].
  split; [eexists; split; reflexivity|]. split; reflexivity.
Qed.

(** * Further properties of the code *)

(** ** The drawn index *)

(** X1. For an array length [n] below 2^32, [Math.random() * n | 0] is an
    index below [n] for every double [Math.random()] can return exactly
    when [n] is at most 2^31: from 2^31 + 1 items on, the largest double
    below one is wrapped by [| 0] to a negative number. *)
Theorem random_index_valid_iff (n : nat) :
  0 < n → (Z.of_nat n < 2 ^ 32)%Z →
  (∀ u, Double.representable u → (0 <= u)%Q → (u < 1)%Q →
        (0 ≤ random_index u n < Z.of_nat n)%Z) ↔
  (Z.of_nat n ≤ 2 ^ 31)%Z.
Proof.
  intros Hn Harray. split.
  - intros Hall. destruct (decide (Z.of_nat n ≤ 2 ^ 31)%Z) as [|Hbig]; [done|].
    exfalso.
    pose proof (random_index_wraps n ltac:(lia)) as Hneg.
    destruct (Hall (Qmake (2 ^ 53 - 1) (Z.to_pos (2 ^ 53)))) as [Hpos _];
      [by apply representable_dyadic | done | done | lia].
  - intros Hfit u Hrep H0 H1. by apply random_index_range.
Qed.

Lemma random_index_valid_iff_witness :
  (∀ u, Double.representable u → (0 <= u)%Q → (u < 1)%Q →
        (0 ≤ random_index u 3 < Z.of_nat 3)%Z) ↔
  (Z.of_nat 3 ≤ 2 ^ 31)%Z.
Proof. apply (random_index_valid_iff 3); lia. Defined.

(** ** shuffleNames on any random source *)

Section ShuffleMore.
Context {T : Type}.
Implicit Types (array a t : list T) (st : ShuffleVars T) (rs : RandomSource).

Lemma shuffle_loop_elements rs n st :
  (∀ x, Some x ∈ sv_result st → x ∈ sv_array st) →
  ∀ x, Some x ∈ sv_result (shuffle_loop rs n st) → x ∈ sv_array st.
Proof.
  revert st. induction n as [|n IH]; intros st Hst x; simpl; [by apply Hst|].
  case_decide; [|by apply Hst].
  intros Hx. apply (IH (shuffle_body rs n st)); [|done].
  simpl. intros y Hy. apply elem_of_app in Hy as [Hy|Hy]; [by apply Hst|].
  apply list_elem_of_singleton in Hy.
  destruct (sv_keys st _) as [key|]; simpl in Hy; [|done].
  symmetry in Hy. by apply list_elem_of_lookup_2 in Hy.
Qed.

(** X2. Whatever the random source returns, in or out of the contract of
    [Math.random()], [shuffleNames] returns as many items as it was given,
    each either an element of the input or [undefined], and leaves the
    input array as it was. *)
Theorem shuffleNames_any_source array rs :
  length (shuffleNames array rs) = length array ∧
  (∀ x, Some x ∈ shuffleNames array rs → x ∈ array) ∧
  sv_array (shuffle_run array rs) = array.
Proof.
  split; [apply shuffleNames_length|]. split.
  - intros x Hx.
    apply (shuffle_loop_elements rs (length array)
             {| sv_array := array; sv_keys := object_keys array;
                sv_result := []; sv_k := 0 |}); [|done].
    simpl. intros y Hy. by apply elem_of_nil in Hy.
  - unfold shuffle_run. by rewrite shuffle_loop_array.
Qed.

(** *** Draws and orders correspond one to one *)

Lemma loop_draws_in_range_tail rs n d :
  loop_draws_in_range rs (S n) d → loop_draws_in_range rs n (S d).
Proof.
  intros Hr k Hk. specialize (Hr (S k) ltac:(lia)).
  by replace (d + S k) with (S d + k) in Hr by lia.
Qed.

Lemma loop_draws_in_range_head rs n d :
  loop_draws_in_range rs (S n) d →
  (0 ≤ random_index (rs d) (S n) < Z.of_nat (S n))%Z.
Proof.
  intros Hr. specialize (Hr 0 ltac:(lia)).
  by rewrite Nat.add_0_r, Nat.sub_0_r in Hr.
Qed.

(** After the swap the current position holds the drawn element. *)
Lemma swap_lookup_current a i j :
  i < length a → j < length a → swap a i j !! i = a !! j.
Proof.
  intros Hi Hj. rewrite swap_lookup by done.
  destruct (decide (i = j)) as [->|?]; [done|]. by rewrite decide_True.
Qed.

Lemma fisher_yates_loop_length rs n d a :
  length (fisher_yates_loop rs n d a) = length a.
Proof. apply Permutation_length, fisher_yates_loop_perm. Qed.

(** The loop with [n] positions left leaves the positions from [n] on. *)
Lemma fisher_yates_loop_settled rs n d a p :
  loop_draws_in_range rs n d → n ≤ length a → n ≤ p →
  fisher_yates_loop rs n d a !! p = a !! p.
Proof.
  revert d a. induction n as [|n IH]; intros d a Hr Hn Hp; simpl; [done|].
  pose proof (loop_draws_in_range_head _ _ _ Hr) as Hj.
  rewrite IH.
  - rewrite swap_lookup by lia. by rewrite !decide_False by lia.
  - by apply loop_draws_in_range_tail.
  - rewrite swap_length. lia.
  - lia.
Qed.

Lemma fisher_yates_loop_injective rs rs' n d a :
  NoDup a → n ≤ length a →
  loop_draws_in_range rs n d → loop_draws_in_range rs' n d →
  fisher_yates_loop rs n d a = fisher_yates_loop rs' n d a →
  ∀ k, k < n →
       random_index (rs (d + k)) (n - k) = random_index (rs' (d + k)) (n - k).
Proof.
  revert d a. induction n as [|n IH]; intros d a Hnd Hn Hr Hr' Heq k Hk; [lia|].
  pose proof (loop_draws_in_range_head _ _ _ Hr) as Hj.
  pose proof (loop_draws_in_range_head _ _ _ Hr') as Hj'.
  simpl in Heq.
  set (j := random_index (rs d) (S n)) in *.
  set (j' := random_index (rs' d) (S n)) in *.
  assert (Hsame : j = j').
  { assert (Hat : fisher_yates_loop rs n (S d) (swap a n (Z.to_nat j)) !! n
                  = fisher_yates_loop rs' n (S d) (swap a n (Z.to_nat j')) !! n)
      by (by rewrite Heq).
    rewrite !fisher_yates_loop_settled in Hat
      by (try (by apply loop_draws_in_range_tail); rewrite ?swap_length; lia).
    rewrite !swap_lookup_current in Hat by lia.
    rename Hat into Hread.
    destruct (lookup_lt_is_Some_2 a (Z.to_nat j) ltac:(lia)) as [x Hx].
    rewrite Hx in Hread. symmetry in Hread.
    pose proof (NoDup_lookup _ _ _ _ Hnd Hx Hread). lia. }
  destruct k as [|k].
  - by rewrite Nat.add_0_r, Nat.sub_0_r.
  - replace (d + S k) with (S d + k) by lia. simpl.
    apply (IH (S d) (swap a n (Z.to_nat j))).
    + by rewrite swap_perm.
    + rewrite swap_length. lia.
    + by apply loop_draws_in_range_tail.
    + by apply loop_draws_in_range_tail.
    + rewrite Heq. by rewrite <- Hsame.
    + lia.
Qed.

Lemma draws_in_range_loop rs len :
  draws_in_range rs len ↔ loop_draws_in_range rs len 0.
Proof. done. Qed.

(** X3. On an array without repeated elements, the order [shuffleNames]
    returns determines the indices that were drawn: two random sources
    that draw in range and give the same order drew the same index at
    every step. No order can be reached by two different sequences of
    draws. *)
Theorem shuffleNames_injective array rs rs' :
  NoDup array →
  draws_in_range rs (length array) →
  draws_in_range rs' (length array) →
  shuffleNames array rs = shuffleNames array rs' →
  ∀ k, k < length array →
       random_index (rs k) (length array - k)
       = random_index (rs' k) (length array - k).
Proof.
  intros Hnd Hr Hr' Heq k Hk.
  rewrite !shuffleNames_reverse in Heq by done.
  apply (inj (fmap Some)), (inj reverse) in Heq.
  by apply (fisher_yates_loop_injective rs rs' (length array) 0 array).
Qed.

End ShuffleMore.

Lemma shuffleNames_injective_witness :
  random_index (Scenario.half 1) (3 - 1)
  = random_index ((λ _, (5 # 8)%Q) 1) (3 - 1).
Proof.
  apply (shuffleNames_injective ["Alice"; "Bob"; "Carol"]
           Scenario.half (λ _, (5 # 8)%Q)).
  - by apply (bool_decide_unpack _).
  - draws_by_contract half_unit_interval.
  - apply unit_interval_draws_in_range; [|simpl; lia].
    intros k. by split; [|split].
  - reflexivity.
  - simpl. lia.
Defined.

Section ShuffleOnto.
Context {T : Type}.
Implicit Types (array a t : list T) (rs : RandomSource).

Lemma swap_drop_after a i j :
  j ≤ i → i < length a → drop (S i) (swap a i j) = drop (S i) a.
Proof.
  intros Hj Hi. apply list_eq. intros p.
  rewrite !lookup_drop, swap_lookup by lia.
  by rewrite !decide_False by lia.
Qed.

Lemma swap_take_perm a i j :
  j ≤ i → i < length a → take (S i) (swap a i j) ≡ₚ take (S i) a.
Proof.
  intros Hj Hi.
  apply (Permutation_app_inv_r (drop (S i) a)).
  rewrite <- (swap_drop_after a i j) at 1 by done.
  rewrite !take_drop. apply swap_perm.
Qed.

(** Any arrangement of the unsettled positions can be reached: there are
    in-range indices such that every source drawing them arrives at [t]. *)
Lemma fisher_yates_loop_onto n d a t :
  n ≤ length a →
  drop n a = drop n t →
  take n a ≡ₚ take n t →
  ∃ js, length js = n ∧
        (∀ k j, js !! k = Some j → j < n - k) ∧
        ∀ rs,
          (∀ k j, js !! k = Some j →
                  random_index (rs (d + k)%nat) (n - k) = Z.of_nat j) →
          fisher_yates_loop rs n d a = t.
Proof.
  revert d a. induction n as [|n IH]; intros d a Hn Hdrop Htake.
  - exists []. split; [done|]. split; [done|].
    intros rs _. simpl. by rewrite !drop_0 in Hdrop.
  - assert (Hnt : S n ≤ length t).
    { apply Permutation_length in Htake. rewrite !length_take in Htake. lia. }
    destruct (lookup_lt_is_Some_2 t n ltac:(lia)) as [x Hx].
    assert (Hin : x ∈ take (S n) a).
    { rewrite Htake. apply list_elem_of_lookup. exists n.
      by rewrite lookup_take_lt by lia. }
    apply list_elem_of_lookup in Hin as [j Hj].
    assert (Hjn : j < S n).
    { apply lookup_lt_Some in Hj. rewrite length_take in Hj. lia. }
    rewrite lookup_take_lt in Hj by done.
    set (a1 := swap a n j).
    assert (Hcur : a1 !! n = Some x).
    { unfold a1. rewrite swap_lookup_current; [done | lia | lia]. }
    assert (Hafter : drop (S n) a1 = drop (S n) t).
    { unfold a1. rewrite swap_drop_after by lia. done. }
    destruct (IH (S d) a1) as (js & Hlen & Hrange & Hreach).
    + unfold a1. rewrite swap_length. lia.
    + rewrite (drop_S a1 x n Hcur), (drop_S t x n Hx). by rewrite Hafter.
    + apply (Permutation_app_inv_r [x]).
      rewrite <- (take_S_r a1 n x Hcur), <- (take_S_r t n x Hx).
      unfold a1. rewrite swap_take_perm by lia. done.
    + exists (j :: js). split; [simpl; lia|]. split.
      * intros [|k] j' Hk; simpl in Hk.
        -- injection Hk as <-. lia.
        -- specialize (Hrange k j' Hk). lia.
      * intros rs Hrs. simpl.
        pose proof (Hrs 0 j eq_refl) as H0.
        rewrite Nat.add_0_r, Nat.sub_0_r in H0.
        rewrite H0, Nat2Z.id. fold a1.
        apply Hreach. intros k j' Hk.
        replace (S d + k) with (d + S k) by lia.
        by apply (Hrs (S k) j').
Qed.

Lemma source_of_indices_numerator (j n : Z) :
  (0 ≤ j < n)%Z → (n ≤ 2 ^ 53)%Z →
  let m := ((j * 2 ^ 53 + n - 1) / n)%Z in
  (j * 2 ^ 53 ≤ m * n < j * 2 ^ 53 + n)%Z ∧ (0 ≤ m < 2 ^ 53)%Z.
Proof.
  intros Hj Hn. simpl.
  pose proof (Z.div_mod (j * 2 ^ 53 + n - 1) n ltac:(lia)) as Hdm.
  pose proof (Z.mod_pos_bound (j * 2 ^ 53 + n - 1) n ltac:(lia)) as Hr.
  set (m := ((j * 2 ^ 53 + n - 1) / n)%Z) in *.
  assert (Hm : (j * 2 ^ 53 ≤ m * n < j * 2 ^ 53 + n)%Z) by lia.
  split; [done|]. nia.
Qed.

Lemma source_of_indices_draw len js k j :
  js !! k = Some j → j < len - k → (Z.of_nat len ≤ 2 ^ 31)%Z →
  random_index (source_of_indices len js k) (len - k) = Z.of_nat j.
Proof.
  intros Hk Hj Hfit. unfold source_of_indices. rewrite Hk. simpl default.
  destruct (source_of_indices_numerator (Z.of_nat j) (Z.of_nat (len - k))
              ltac:(lia) ltac:(lia)) as [Hm _].
  apply random_index_between; cbn [Qnum Qden];
    rewrite ?Z2Pos.id by lia; lia.
Qed.

Lemma source_of_indices_unit_interval len js :
  (Z.of_nat len ≤ 2 ^ 31)%Z →
  (∀ k j, js !! k = Some j → j < len - k) →
  unit_interval (source_of_indices len js).
Proof.
  intros Hfit Hrange k. unfold source_of_indices.
  set (j := Z.of_nat (default 0 (js !! k))).
  set (n := Z.of_nat (len - k)).
  assert (Hm : (0 ≤ (j * 2 ^ 53 + n - 1) / n < 2 ^ 53)%Z).
  { destruct (decide (n = 0%Z)) as [->|Hn]; [by rewrite Z.div_0_r|].
    apply source_of_indices_numerator; [|unfold n; lia].
    unfold j, n. destruct (js !! k) as [j'|] eqn:Hk; simpl; [|lia].
    specialize (Hrange k j' Hk). lia. }
  split; [by apply representable_dyadic|].
  unfold Qle, Qlt. cbn [Qnum Qden]. rewrite Z2Pos.id by lia. lia.
Qed.

(** X4. Every arrangement of the input is the result of [shuffleNames] for
    some random source that honours the contract of [Math.random()], a
    double in the unit interval at every call, as long as the array has at
    most 2^31 elements: no order is out of reach. *)
Theorem shuffleNames_onto array (target : list T) :
  target ≡ₚ array →
  (Z.of_nat (length array) ≤ 2 ^ 31)%Z →
  ∃ rs, unit_interval rs ∧ shuffleNames array rs = Some <$> target.
Proof.
  intros Hperm Hfit.
  assert (Hlen : length (reverse target) = length array)
    by (rewrite length_reverse; by apply Permutation_length).
  destruct (fisher_yates_loop_onto (length array) 0 array (reverse target))
    as (js & Hjs & Hrange & Hreach).
  - done.
  - rewrite drop_all. rewrite <- Hlen. by rewrite drop_all.
  - rewrite firstn_all. rewrite <- Hlen, firstn_all.
    by rewrite reverse_Permutation.
  - set (rs := source_of_indices (length array) js).
    assert (Hdraw : ∀ k j, js !! k = Some j →
              random_index (rs (0 + k)%nat) (length array - k) = Z.of_nat j).
    { intros k j Hk. simpl. apply source_of_indices_draw; [done | | done].
      by apply (Hrange k j). }
    exists rs. split; [by apply source_of_indices_unit_interval|].
    rewrite shuffleNames_reverse.
    + unfold fisher_yates. rewrite (Hreach rs Hdraw). by rewrite reverse_involutive.
    + intros k Hk.
      destruct (lookup_lt_is_Some_2 js k ltac:(lia)) as [j Hj].
      specialize (Hdraw k j Hj). simpl in Hdraw. rewrite Hdraw.
      specialize (Hrange k j Hj). lia.
Qed.

End ShuffleOnto.

Lemma shuffleNames_onto_witness :
  ∃ rs, unit_interval rs ∧
        shuffleNames ["Alice"; "Bob"; "Carol"] rs
        = Some <$> ["Carol"; "Alice"; "Bob"].
Proof.
  apply (shuffleNames_onto ["Alice"; "Bob"; "Carol"] ["Carol"; "Alice"; "Bob"]).
  - by apply (bool_decide_unpack _).
  - simpl. lia.
Defined.

(** ** One spin *)

Section SpinMore.
Implicit Types (s : Slot) (rs : RandomSource) (how : Ending).

(** What a successful spin leaves besides the lists. *)
Lemma spin_after_surface how s rs children :
  value (spin how s rs) = true →
  reelContainer s = Some children →
  let s' := after (spin how s rs) in
  reelContainer s' =
    Some (Dom.keep_last_child (children ++ reel_items (populate s rs))) ∧
  havePreviousWinner s' = true ∧
  reelAnimation s' = Some AnimFinished ∧
  maxReelItems s' = maxReelItems s ∧
  shouldRemoveWinner s' = shouldRemoveWinner s ∧
  onSpinStart s' = onSpinStart s ∧
  onSpinEnd s' = onSpinEnd s ∧
  onNameListChanged s' = onNameListChanged s.
Proof.
  unfold spin, spin_begin. case_decide; [done|]. intros Hok Hc. revert Hok.
  rewrite Hc. destruct (reelAnimation s); [|done].
  destruct how; simpl; intros _; rewrite ?keep_last_child_again; done.
Qed.

(** The position [splice] removes at, for the answer of [findIndex]. *)
Lemma splice_position {A} (p : A → bool) (l : list A) :
  l ≠ [] →
  Js.relative (length l) (Js.findIndex p l) < length l.
Proof.
  intros Hne. pose proof (findIndex_range p l) as Hr.
  assert (0 < length l) by (destruct l; [done | simpl; lia]).
  unfold Js.relative. case_decide; lia.
Qed.

Lemma keep_last_child_last (children : list Dom.Element) (c : Dom.Element) :
  last children = Some c → Dom.keep_last_child children = [c].
Proof.
  intros Hlast. rewrite keep_last_child_drop.
  destruct (last_Some children c) as [[l ->] _]; [done|].
  rewrite length_app. simpl.
  replace (length l + 1 - 1) with (length l) by lia.
  by rewrite drop_app_length.
Qed.

(** The reel container after a successful spin on a non-empty reel. *)
Lemma spin_surface_winner how s rs :
  value (spin how s rs) = true →
  draws_in_range rs (length (nameList s)) →
  populate s rs ≠ [] →
  let s' := after (spin how s rs) in
  ∃ name,
    reelContainer s' = Some [Dom.ReelItem name] ∧
    winnerList s' =
      winnerList s ++ [active_prize (prizeList s) +:+ " - " +:+ name] ∧
    name ∈ nameList s ∧
    havePreviousWinner s' = true ∧
    reelAnimation s' = Some AnimFinished.
Proof.
  intros Hok Hdraw Hne. simpl.
  destruct (proj1 (spin_true how s rs) Hok) as (_ & [children Hc] & _).
  destruct (spin_after_surface how s rs children Hok Hc)
    as (Hsurface & Hflag & Hanim & _).
  destruct (spin_logs_winner how s rs Hok Hdraw Hne) as (name & _ & Hin & Hlog).
  destruct (last_item_drawn s rs Hdraw Hne) as (name' & Hlast & _ & _).
  destruct (spin_after how s rs Hok) as (_ & Hlog' & _).
  exists name'. rewrite Hsurface.
  assert (Hshown : last (children ++ reel_items (populate s rs))
                   = Some (Dom.ReelItem name')).
  { destruct (last_Some (populate s rs) (Some name')) as [[l Hl] _]; [done|].
    unfold reel_items. rewrite Hl, fmap_app, app_assoc. simpl.
    by rewrite last_snoc. }
  rewrite (keep_last_child_last _ _ Hshown).
  split; [done|]. split.
  - rewrite Hlog'. unfold addWinner, last_item.
    rewrite index_last, Hlast, getActivePrizeToDraw_head. done.
  - split; [|done].
    pose proof (populate_drawn s rs Hdraw) as Hall.
    rewrite Forall_forall in Hall.
    destruct (Hall (Some name')) as (n & Hn & Hnin).
    { rewrite last_lookup in Hlast. by eapply list_elem_of_lookup_2. }
    by injection Hn as ->.
Qed.

(** With removal enabled a successful spin removes one name, whichever. *)
Lemma spin_splices_one_name how s rs :
  value (spin how s rs) = true →
  shouldRemoveWinner s = true →
  let s' := after (spin how s rs) in
  length (nameList s') + 1 = length (nameList s) ∧
  nameList s' `sublist_of` nameList s.
Proof.
  intros Hok Hrm. simpl.
  destruct (spin_after how s rs Hok) as (_ & _ & _ & Hnames).
  destruct (proj1 (spin_true how s rs) Hok) as (Hne & _).
  rewrite Hnames, Hrm. unfold Js.splice1.
  pose proof (splice_position
    (λ name, Js.strict_eq name (last_item (populate s rs))) _ Hne) as Hpos.
  split.
  - rewrite length_delete by (by apply lookup_lt_is_Some_2). lia.
  - apply sublist_delete.
Qed.

(** X5. When the engine has no reel container, [spin()] on a non-empty
    name list calls [onSpinStart], if configured, and then resolves to
    [false]: the engine is left as it was and [onSpinEnd] is not called. *)
Theorem spin_without_reel how s rs :
  nameList s ≠ [] →
  reelContainer s = None ∨ reelAnimation s = None →
  spin how s rs =
    {| after := s;
       fired := (if onSpinStart s then [SpinStartHook] else []);
       value := false |}.
Proof.
  intros Hne Hno. unfold spin, spin_begin.
  rewrite decide_False by (by destruct (nameList s)).
  destruct Hno as [-> | Hno]; [done|].
  rewrite Hno. by destruct (reelContainer s).
Qed.

Lemma spin_without_reel_witness :
  let s := calls [CallSetNames ["Alice"]]
             {| nameList := []; prizeList := []; winnerList := [];
                randomNames := []; havePreviousWinner := false;
                reelContainer := None; maxReelItems := 30;
                shouldRemoveWinner := true; reelAnimation := None;
                onSpinStart := true; onSpinEnd := true;
                onNameListChanged := true |} in
  spin Natural s Scenario.half =
    {| after := s;
       fired := (if onSpinStart s then [SpinStartHook] else []);
       value := false |}.
Proof.
  apply spin_without_reel; [discriminate | by left].
Defined.

(** X6. After a successful spin whose reel was not empty, the reel
    container holds one item only: the one made from the name logged as the
    winner, a name of the list the spin started from, by assigning it to
    the item's [innerHTML]; the previous-winner flag is set and the
    animation finished. *)
Theorem spin_displays_winner how s rs :
  value (spin how s rs) = true →
  draws_in_range rs (length (nameList s)) →
  populate s rs ≠ [] →
  let s' := after (spin how s rs) in
  ∃ name,
    reelContainer s' = Some [Dom.ReelItem name] ∧
    winnerList s' =
      winnerList s ++ [active_prize (prizeList s) +:+ " - " +:+ name] ∧
    name ∈ nameList s ∧
    havePreviousWinner s' = true ∧
    reelAnimation s' = Some AnimFinished.
Proof. apply spin_surface_winner. Qed.

Lemma spin_displays_winner_witness :
  let s := Scenario.gala in
  let s' := after (spin Natural s Scenario.half) in
  ∃ name,
    reelContainer s' = Some [Dom.ReelItem name] ∧
    winnerList s' =
      winnerList s ++ [active_prize (prizeList s) +:+ " - " +:+ name] ∧
    name ∈ nameList s ∧
    havePreviousWinner s' = true ∧
    reelAnimation s' = Some AnimFinished.
Proof.
  apply (spin_displays_winner Natural Scenario.gala Scenario.half).
  - reflexivity.
  - draws_by_contract half_unit_interval.
  - discriminate.
Defined.

(** X7. Carry-over. When a successful spin with a non-empty reel is
    followed by another spin on a non-empty name list, with at least one
    reel item configured, the reel container holds during the second spin
    the item made from the winner of the first, followed by the items made
    from the new reel, one for each of its names in order: [maxReelItems]
    items in all. *)
Theorem spin_carries_previous_winner how s rs rs' :
  value (spin how s rs) = true →
  draws_in_range rs (length (nameList s)) →
  populate s rs ≠ [] →
  nameList (after (spin how s rs)) ≠ [] →
  (1 ≤ maxReelItems s)%Z →
  let s1 := after (spin how s rs) in
  let s2 := after (spin_begin s1 rs') in
  ∃ name,
    winnerList s1 =
      winnerList s ++ [active_prize (prizeList s) +:+ " - " +:+ name] ∧
    reelContainer s2 =
      Some (Dom.ReelItem name :: reel_items (populate s1 rs')) ∧
    Z.of_nat (length (Dom.ReelItem name :: reel_items (populate s1 rs')))
      = maxReelItems s.
Proof.
  intros Hok Hdraw Hne Hnames Hmax. simpl.
  destruct (spin_surface_winner how s rs Hok Hdraw Hne)
    as (name & Hsurface & Hlog & _ & Hflag & Hanim).
  destruct (proj1 (spin_true how s rs) Hok) as (_ & [children Hc] & _).
  destruct (spin_after_surface how s rs children Hok Hc)
    as (_ & _ & _ & Hsame & _).
  exists name. split; [done|].
  set (s1 := after (spin how s rs)) in *.
  split.
  - unfold spin_begin.
    rewrite decide_False by (by destruct (nameList s1)).
    by rewrite Hsurface, Hanim.
  - destruct (populate_doubled s1 rs' Hnames ltac:(lia)) as (k & _ & _ & _ & Hlen).
    unfold reel_items. simpl. rewrite length_fmap.
    rewrite Hflag in Hlen. simpl in Hlen. lia.
Qed.

Lemma spin_carries_previous_winner_witness :
  let s := Scenario.gala in
  let s1 := after (spin Forced s Scenario.half) in
  let s2 := after (spin_begin s1 Scenario.low) in
  ∃ name,
    winnerList s1 =
      winnerList s ++ [active_prize (prizeList s) +:+ " - " +:+ name] ∧
    reelContainer s2 =
      Some (Dom.ReelItem name :: reel_items (populate s1 Scenario.low)) ∧
    Z.of_nat (length (Dom.ReelItem name
                        :: reel_items (populate s1 Scenario.low)))
      = maxReelItems s.
Proof.
  apply (spin_carries_previous_winner Forced Scenario.gala
           Scenario.half Scenario.low).
  - reflexivity.
  - draws_by_contract half_unit_interval.
  - discriminate.
  - discriminate.
  - simpl. lia.
Defined.

(** X8. Replacing the name list ends the carry-over: after [set names] the
    engine holds the new list, with the prize queue and the winner log as
    they were, and the next spin, on at least one configured reel item,
    fills the emptied reel container with exactly [maxReelItems] new
    items, one made from each name of its reel in order, and nothing
    else. *)
Theorem set_names_resets_carry_over s names rs children anim :
  names ≠ [] →
  (1 ≤ maxReelItems s)%Z →
  reelContainer s = Some children →
  reelAnimation s = Some anim →
  let r := set_names names s in
  let s2 := after (spin_begin (after r) rs) in
  nameList (after r) = names ∧
  prizeList (after r) = prizeList s ∧
  winnerList (after r) = winnerList s ∧
  fired r = (if onNameListChanged s then [NameListChangedHook] else []) ∧
  reelContainer s2 = Some (reel_items (populate (after r) rs)) ∧
  Z.of_nat (length (reel_items (populate (after r) rs))) = maxReelItems s.
Proof.
  intros Hne Hmax Hc Ha. simpl.
  repeat split; try done.
  - unfold spin_begin. simpl.
    rewrite decide_False by (by destruct names).
    by rewrite Hc, Ha.
  - destruct (populate_doubled (after (set_names names s)) rs Hne Hmax)
      as (k & _ & _ & _ & Hlen).
    simpl in Hlen. unfold reel_items. rewrite length_fmap. simpl. lia.
Qed.

Lemma set_names_resets_carry_over_witness :
  let s := after (spin Forced Scenario.gala Scenario.half) in
  let r := set_names ["Dan"; "Eve"] s in
  let s2 := after (spin_begin (after r) Scenario.half) in
  nameList (after r) = ["Dan"; "Eve"] ∧
  prizeList (after r) = prizeList s ∧
  winnerList (after r) = winnerList s ∧
  fired r = (if onNameListChanged s then [NameListChangedHook] else []) ∧
  reelContainer s2 = Some (reel_items (populate (after r) Scenario.half)) ∧
  Z.of_nat (length (reel_items (populate (after r) Scenario.half)))
    = maxReelItems s.
Proof.
  apply (set_names_resets_carry_over
           (after (spin Forced Scenario.gala Scenario.half))
           ["Dan"; "Eve"] Scenario.half [Dom.ReelItem "Alice"] AnimFinished).
  - discriminate.
  - simpl. lia.
  - reflexivity.
  - reflexivity.
Defined.

(** X9. With winner removal enabled, every successful spin removes exactly
    one name and keeps the others in their order, whatever the reel and
    the random source were. *)
Theorem spin_removes_one_name how s rs :
  value (spin how s rs) = true →
  shouldRemoveWinner s = true →
  let s' := after (spin how s rs) in
  length (nameList s') + 1 = length (nameList s) ∧
  nameList s' `sublist_of` nameList s.
Proof. apply spin_splices_one_name. Qed.

Lemma spin_removes_one_name_witness :
  let s := after (Scenario.first_draw Scenario.removing Scenario.low) in
  let s' := after (spin Forced s Scenario.low) in
  length (nameList s') + 1 = length (nameList s) ∧
  nameList s' `sublist_of` nameList s.
Proof.
  apply (spin_removes_one_name Forced
           (after (Scenario.first_draw Scenario.removing Scenario.low))
           Scenario.low).
  - reflexivity.
  - reflexivity.
Defined.

(** X10. With no reel item or less configured nothing is padded: the reel
    is the shuffled list cut by [slice(0, maxReelItems - Number(flag))].
    It is empty when that bound is 0, and otherwise the bound is negative
    and drops as many items from the end of the shuffled list. *)
Theorem populate_without_items s rs :
  (maxReelItems s ≤ 0)%Z →
  let bound := (maxReelItems s - Js.Number (havePreviousWinner s))%Z in
  populate s rs = Js.slice0 (shuffleNames (nameList s) rs) bound ∧
  length (populate s rs) =
    (if decide (bound = 0%Z) then 0
     else Z.to_nat (Z.of_nat (length (nameList s)) + bound)).
Proof.
  intros Hmax. simpl.
  assert (Hpad : pad_reel (Z.to_nat (maxReelItems s)) (maxReelItems s)
                   (shuffleNames (nameList s) rs)
                 = shuffleNames (nameList s) rs).
  { replace (Z.to_nat (maxReelItems s)) with 0 by lia. done. }
  unfold populate. rewrite Hpad. split; [done|].
  unfold Js.slice0, Js.relative.
  rewrite length_take, shuffleNames_length.
  assert (0 ≤ Js.Number (havePreviousWinner s) ≤ 1)%Z
    by (destruct (havePreviousWinner s); simpl; lia).
  repeat case_decide; lia.
Qed.

Lemma populate_without_items_witness :
  let s := after (spin Forced
             (Scenario.loaded ["Alice"; "Bob"; "Carol"] ["Gold"; "Silver"]
                (Scenario.fresh 0 false)) Scenario.half) in
  let bound := (maxReelItems s - Js.Number (havePreviousWinner s))%Z in
  populate s Scenario.half
    = Js.slice0 (shuffleNames (nameList s) Scenario.half) bound ∧
  length (populate s Scenario.half) =
    (if decide (bound = 0%Z) then 0
     else Z.to_nat (Z.of_nat (length (nameList s)) + bound)).
Proof.
  apply (populate_without_items
           (after (spin Forced
             (Scenario.loaded ["Alice"; "Bob"; "Carol"] ["Gold"; "Silver"]
                (Scenario.fresh 0 false)) Scenario.half)) Scenario.half).
  simpl. lia.
Defined.

End SpinMore.

(** ** Sequences of calls *)

Section CallsFacts.
Implicit Types (s : Slot) (rs : RandomSource) (how : Ending).

(** What no spin changes, successful or not. *)
Lemma spin_keeps_setup how s rs :
  let s' := after (spin how s rs) in
  maxReelItems s' = maxReelItems s ∧
  shouldRemoveWinner s' = shouldRemoveWinner s ∧
  onSpinStart s' = onSpinStart s ∧
  onSpinEnd s' = onSpinEnd s ∧
  onNameListChanged s' = onNameListChanged s ∧
  (is_Some (reelContainer s') ↔ is_Some (reelContainer s)) ∧
  (is_Some (reelAnimation s') ↔ is_Some (reelAnimation s)).
Proof.
  unfold spin, spin_begin. simpl. case_decide; [done|].
  destruct (reelContainer s) as [children|] eqn:Hc,
           (reelAnimation s) as [anim|] eqn:Ha;
    destruct how; simpl; rewrite ?Hc, ?Ha; repeat split; eauto.
Qed.

(** A spin appends one entry to the winner log when it succeeds, and
    leaves the log alone when it does not. *)
Lemma spin_log how s rs :
  ∃ entries,
    winnerList (after (spin how s rs)) = winnerList s ++ entries ∧
    length entries = (if value (spin how s rs) then 1 else 0).
Proof.
  destruct (value (spin how s rs)) eqn:Hv.
  - destruct (spin_after how s rs Hv) as (_ & Hlog & _).
    eexists. split; [exact Hlog | done].
  - exists []. rewrite app_nil_r. split; [|done].
    revert Hv. unfold spin, spin_begin. case_decide; [done|].
    destruct (reelContainer s), (reelAnimation s); destruct how; done.
Qed.

Lemma call_keeps_setup (c : Call) s :
  let s' := call c s in
  winnerList s `prefix_of` winnerList s' ∧
  maxReelItems s' = maxReelItems s ∧
  onSpinStart s' = onSpinStart s ∧
  onSpinEnd s' = onSpinEnd s ∧
  onNameListChanged s' = onNameListChanged s ∧
  (is_Some (reelContainer s') ↔ is_Some (reelContainer s)) ∧
  (is_Some (reelAnimation s') ↔ is_Some (reelAnimation s)).
Proof.
  destruct c as [how rs| |names|prizes|removeWinner]; simpl.
  - destruct (spin_log how s rs) as (entries & -> & _).
    destruct (spin_keeps_setup how s rs) as (? & _ & ? & ? & ? & ? & ?).
    split; [by apply prefix_app_r|]. done.
  - unfold forceStopSpin. destruct (reelContainer s) eqn:Hc; simpl;
      rewrite ?Hc; repeat split; try done; eauto;
      try (rewrite fmap_is_Some; done); by intros [? ?].
  - repeat split; try done; rewrite fmap_is_Some; done.
  - done.
  - done.
Qed.

(** What every sequence of calls keeps. *)
Lemma calls_invariant (cs : list Call) s :
  let s' := calls cs s in
  winnerList s `prefix_of` winnerList s' ∧
  maxReelItems s' = maxReelItems s ∧
  onSpinStart s' = onSpinStart s ∧
  onSpinEnd s' = onSpinEnd s ∧
  onNameListChanged s' = onNameListChanged s ∧
  (is_Some (reelContainer s') ↔ is_Some (reelContainer s)) ∧
  (is_Some (reelAnimation s') ↔ is_Some (reelAnimation s)).
Proof.
  revert s. induction cs as [|c cs IH]; intros s; simpl; [done|].
  destruct (call_keeps_setup c s) as (Hp & Hm & H1 & H2 & H3 & Hc & Ha).
  destruct (IH (call c s)) as (Hp' & Hm' & H1' & H2' & H3' & Hc' & Ha').
  fold (calls cs (call c s)).
  split; [by etrans|].
  split; [congruence|]. split; [congruence|]. split; [congruence|].
  split; [congruence|]. split; [by etrans | by etrans].
Qed.

(** X11. The winner log is append-only and the setup is fixed: over any
    sequence of calls of [spin], [forceStopSpin] and the setters, the log
    the sequence started with stays at the start of the log, entry for
    entry, and [maxReelItems], the configured hooks and the presence of the
    reel container and of its animation do not change. *)
Theorem calls_keep_log_and_setup (cs : list Call) s :
  let s' := calls cs s in
  winnerList s `prefix_of` winnerList s' ∧
  maxReelItems s' = maxReelItems s ∧
  onSpinStart s' = onSpinStart s ∧
  onSpinEnd s' = onSpinEnd s ∧
  onNameListChanged s' = onNameListChanged s ∧
  (is_Some (reelContainer s') ↔ is_Some (reelContainer s)) ∧
  (is_Some (reelAnimation s') ↔ is_Some (reelAnimation s)).
Proof. apply calls_invariant. Qed.

(** X12. An engine built on a page without the reel container never draws:
    construction succeeds, and after any sequence of calls [spin()]
    resolves to [false], the winner log is empty and [forceStopSpin()]
    throws. *)
Theorem engine_without_reel_never_draws (document : Dom.Document)
    (cfg : SlotConfigurations) :
  document (cfg_reelContainerSelector cfg) = inr None →
  ∃ s0, constructor document cfg = inr s0 ∧
        ∀ cs how rs,
          value (spin how (calls cs s0) rs) = false ∧
          winnerList (calls cs s0) = [] ∧
          winnerList (after (spin how (calls cs s0) rs)) = [] ∧
          value (forceStopSpin (calls cs s0)) = inl TypeError.
Proof.
  intros Hdoc. unfold constructor. rewrite Hdoc. eexists. split; [done|].
  intros cs how rs.
  match goal with |- context [calls cs ?s0] => set (start := s0) end.
  destruct (calls_invariant cs start) as (_ & _ & _ & _ & _ & Hc & _).
  assert (Hnone : reelContainer (calls cs start) = None).
  { destruct (reelContainer (calls cs start)) eqn:E; [|done].
    destruct (proj1 Hc ltac:(by eexists)) as [? ?]. done. }
  assert (Hfalse : value (spin how (calls cs start) rs) = false).
  { destruct (value (spin how (calls cs start) rs)) eqn:Hv; [|done].
    apply spin_true in Hv as (_ & [? Hsome] & _). congruence. }
  assert (Hlog : ∀ cs', winnerList (calls cs' start) = []).
  { intros cs'. induction cs' as [|c cs' IH] using rev_ind; [done|].
    unfold calls in *. rewrite foldl_snoc.
    destruct (calls_invariant cs' start) as (_ & _ & _ & _ & _ & Hc' & _).
    fold (calls cs' start) in *.
    assert (Hnone' : reelContainer (calls cs' start) = None).
    { destruct (reelContainer (calls cs' start)) eqn:E; [|done].
      destruct (proj1 Hc' ltac:(by eexists)) as [? ?]. done. }
    destruct c as [how' rs'| |names|prizes|removeWinner]; simpl; try done.
    - destruct (spin_log how' (calls cs' start) rs') as (entries & -> & Hlen).
      destruct (value (spin how' (calls cs' start) rs')) eqn:Hv.
      + apply spin_true in Hv as (_ & [? Hsome] & _). congruence.
      + destruct entries; [|done]. by rewrite app_nil_r.
    - unfold forceStopSpin. by rewrite Hnone'. }
  split; [done|]. split; [apply Hlog|]. split.
  - pose proof (Hlog (cs ++ [CallSpin how rs])) as Hlast.
    unfold calls in Hlast. by rewrite foldl_snoc in Hlast.
  - unfold forceStopSpin. by rewrite Hnone.
Qed.

Lemma engine_without_reel_never_draws_witness :
  ∃ s0, constructor (λ _, inr None) (Scenario.configuration 3 true) = inr s0 ∧
        ∀ cs how rs,
          value (spin how (calls cs s0) rs) = false ∧
          winnerList (calls cs s0) = [] ∧
          winnerList (after (spin how (calls cs s0) rs)) = [] ∧
          value (forceStopSpin (calls cs s0)) = inl TypeError.
Proof.
  apply (engine_without_reel_never_draws (λ _, inr None)
           (Scenario.configuration 3 true)).
  reflexivity.
Defined.

(** Splitting the draws made in a row. *)
Lemma spin_all_cons how rs rounds s :
  spin_all ((how, rs) :: rounds) s =
    (value (spin how s rs) :: (spin_all rounds (after (spin how s rs))).1,
     (spin_all rounds (after (spin how s rs))).2).
Proof. simpl. by destruct (spin_all rounds (after (spin how s rs))). Qed.

(** X13. With winner removal enabled and a reel container, a list of [n]
    names gives exactly [n] draws: of the draws made in a row the first
    [n] succeed and all later ones resolve to [false], each success
    removes one name and logs one entry. *)
Theorem draws_until_names_run_out (rounds : list (Ending * RandomSource)) s :
  shouldRemoveWinner s = true →
  is_Some (reelContainer s) →
  is_Some (reelAnimation s) →
  let n := length (nameList s) in
  let m := length rounds in
  (spin_all rounds s).1 = replicate (m `min` n) true ++ replicate (m - n) false ∧
  length (nameList (spin_all rounds s).2) = n - m ∧
  length (winnerList (spin_all rounds s).2)
    = length (winnerList s) + m `min` n.
Proof.
  revert s. induction rounds as [|[how rs] rounds IH]; intros s Hrm Hc Ha.
  - simpl. repeat split; lia.
  - rewrite spin_all_cons. cbn [fst snd length].
    destruct (spin_keeps_setup how s rs) as (_ & Hrm' & _ & _ & _ & Hc' & Ha').
    destruct (IH (after (spin how s rs))) as (Hres & Hnames & Hlog).
    { by rewrite Hrm'. }
    { by apply Hc'. }
    { by apply Ha'. }
    rewrite Hres, Hnames, Hlog.
    destruct (spin_log how s rs) as (entries & Hlog1 & Hlen).
    rewrite Hlog1, length_app, Hlen.
    destruct (nameList s) as [|name names] eqn:Hlist.
    + assert (Hv : spin how s rs =
                {| after := s;
                   fired := [ConsoleError
                     "Name List is empty. Cannot start spinning."];
                   value := false |})
        by (unfold spin, spin_begin; rewrite Hlist; by destruct how).
      rewrite Hv. simpl. rewrite Hlist. simpl.
      rewrite Nat.min_0_r, !Nat.sub_0_r. repeat split; lia.
    + assert (Hv : value (spin how s rs) = true).
      { apply spin_true. by rewrite Hlist. }
      destruct (spin_splices_one_name how s rs Hv Hrm) as (Hone & _).
      rewrite Hv. rewrite Hlist in Hone. simpl in Hone.
      replace (length (nameList (after (spin how s rs)))) with (length names)
        by lia.
      simpl. repeat split; lia.
Qed.

Lemma draws_until_names_run_out_witness :
  let s := Scenario.gala in
  let rounds := [(Forced, Scenario.half); (Natural, Scenario.low);
                 (Forced, Scenario.low); (Forced, Scenario.half)] in
  (spin_all rounds s).1 = replicate (4 `min` 3) true ++ replicate (4 - 3) false ∧
  length (nameList (spin_all rounds s).2) = 3 - 4 ∧
  length (winnerList (spin_all rounds s).2)
    = length (winnerList s) + 4 `min` 3.
Proof.
  apply (draws_until_names_run_out
           [(Forced, Scenario.half); (Natural, Scenario.low);
            (Forced, Scenario.low); (Forced, Scenario.half)] Scenario.gala).
  - reflexivity.
  - by eexists.
  - by eexists.
Defined.

(** X14. With winner removal disabled, a non-empty name list and a reel
    container, every draw made in a row succeeds; the name list stays as it
    is, the prize queue loses one prize per draw, and the [i]-th entry
    logged carries the [i]-th prize of the queue, or the placeholder once
    the queue is used up. *)
Theorem draws_pair_prizes_in_order (rounds : list (Ending * RandomSource)) s :
  shouldRemoveWinner s = false →
  nameList s ≠ [] →
  is_Some (reelContainer s) →
  is_Some (reelAnimation s) →
  let s' := (spin_all rounds s).2 in
  (spin_all rounds s).1 = replicate (length rounds) true ∧
  nameList s' = nameList s ∧
  prizeList s' = drop (length rounds) (prizeList s) ∧
  ∃ entries,
    winnerList s' = winnerList s ++ entries ∧
    length entries = length rounds ∧
    ∀ i entry, entries !! i = Some entry →
      ∃ winner, entry = default "-------" (prizeList s !! i)
                          +:+ " - " +:+ winner.
Proof.
  revert s. induction rounds as [|[how rs] rounds IH]; intros s Hrm Hne Hc Ha.
  - simpl. repeat split; try done. exists []. by rewrite app_nil_r.
  - rewrite spin_all_cons. cbn [fst snd length].
    assert (Hv : value (spin how s rs) = true) by (by apply spin_true).
    destruct (spin_keeps_setup how s rs) as (_ & Hrm' & _ & _ & _ & Hc' & Ha').
    pose proof (spin_keeps_names how s rs Hv Hrm) as Hnames.
    destruct (spin_after how s rs Hv) as (_ & Hlog & Hprizes & _).
    destruct (IH (after (spin how s rs))) as (Hres & Hn & Hp & entries & Hl & Hlen & He).
    { by rewrite Hrm'. }
    { by rewrite Hnames. }
    { by apply Hc'. }
    { by apply Ha'. }
    rewrite Hres, Hn, Hnames, Hp, Hprizes, splice1_head, Hv.
    split; [done|]. split; [done|]. split.
    { destruct (prizeList s); simpl; by rewrite ?drop_nil. }
    exists ((getActivePrizeToDraw s +:+ " - "
               +:+ Js.to_string (last_item (populate s rs))) :: entries).
    split.
    { rewrite Hl, Hlog. unfold addWinner. by rewrite <- app_assoc. }
    split; [simpl; lia|].
    intros [|i] entry Hentry.
    + assert (entry = getActivePrizeToDraw s +:+ " - "
                        +:+ Js.to_string (last_item (populate s rs))) as ->
        by (simpl in Hentry; congruence).
      exists (Js.to_string (last_item (populate s rs))).
      rewrite getActivePrizeToDraw_head. by destruct (prizeList s).
    + destruct (He i entry Hentry) as (winner & ->). exists winner.
      rewrite Hprizes, splice1_head. by destruct (prizeList s).
Qed.

Lemma draws_pair_prizes_in_order_witness :
  let s := Scenario.keeping in
  let rounds := [(Forced, Scenario.half); (Natural, Scenario.low);
                 (Forced, Scenario.low)] in
  let s' := (spin_all rounds s).2 in
  (spin_all rounds s).1 = replicate (length rounds) true ∧
  nameList s' = nameList s ∧
  prizeList s' = drop (length rounds) (prizeList s) ∧
  ∃ entries,
    winnerList s' = winnerList s ++ entries ∧
    length entries = length rounds ∧
    ∀ i entry, entries !! i = Some entry →
      ∃ winner, entry = default "-------" (prizeList s !! i)
                          +:+ " - " +:+ winner.
Proof.
  apply (draws_pair_prizes_in_order
           [(Forced, Scenario.half); (Natural, Scenario.low);
            (Forced, Scenario.low)] Scenario.keeping).
  - reflexivity.
  - discriminate.
  - by eexists.
  - by eexists.
Defined.

End CallsFacts.

(** ** The host page: text of the settings dialog *)

Section HostText.
Implicit Types (text raw name : string) (names : list string)
  (test : Ascii.ascii → bool).

Lemma all_chars_app test text1 text2 :
  Host.all_chars test (text1 +:+ text2)
  = Host.all_chars test text1 && Host.all_chars test text2.
Proof.
  induction text1 as [|c text1 IH]; simpl; [done|].
  by rewrite IH, andb_assoc.
Qed.

Lemma trim_start_blank text :
  Host.trim_start text = EmptyString ↔
  Host.all_chars Host.is_white_space text = true.
Proof.
  induction text as [|c text IH]; simpl; [done|].
  destruct (Host.is_white_space c); simpl; [done|]. split; discriminate.
Qed.

Lemma trim_start_keeps_blank text :
  Host.all_chars Host.is_white_space (Host.trim_start text)
  = Host.all_chars Host.is_white_space text.
Proof.
  induction text as [|c text IH]; simpl; [done|].
  destruct (Host.is_white_space c) eqn:Hc; simpl; [done|]. by rewrite Hc.
Qed.

Lemma trim_end_blank text :
  Host.trim_end text = EmptyString ↔
  Host.all_chars Host.is_white_space text = true.
Proof.
  induction text as [|c text IH]; simpl; [done|].
  destruct (Host.trim_end text) as [|c' kept] eqn:Hend.
  - destruct (Host.is_white_space c); simpl.
    + split; [intros _; by apply IH | done].
    + split; discriminate.
  - split; [discriminate|]. intros Hall.
    apply andb_true_iff in Hall as [_ Hall]. apply IH in Hall. discriminate.
Qed.

(** [Boolean(name.trim())] tells whether the name has something else than
    white space. *)
Lemma Boolean_trim text :
  Host.Boolean (Host.trim text)
  = negb (Host.all_chars Host.is_white_space text).
Proof.
  unfold Host.trim.
  destruct (Host.trim_end (Host.trim_start text)) as [|c kept] eqn:Hend; simpl.
  - apply trim_end_blank in Hend. rewrite trim_start_keeps_blank in Hend.
    by rewrite Hend.
  - destruct (Host.all_chars Host.is_white_space text) eqn:Hall; [|done].
    rewrite <- trim_start_keeps_blank in Hall.
    apply trim_end_blank in Hall. congruence.
Qed.

Lemma split_lines_cons text :
  ∃ line lines, Host.split_lines text = line :: lines.
Proof.
  destruct text as [|c text]; simpl; [by eexists _, _|].
  destruct (Ascii.eqb c Host.line_feed); [by eexists _, _|].
  destruct (Host.split_lines text); by eexists _, _.
Qed.

(** Splitting keeps what holds of every code unit, and no line holds a
    line feed. *)
Lemma split_lines_all test text :
  Host.all_chars test text = true →
  Forall (λ line, Host.all_chars test line = true) (Host.split_lines text).
Proof.
  induction text as [|c text IH]; simpl; intros Hall.
  - by repeat constructor.
  - apply andb_true_iff in Hall as [Hc Hall]. specialize (IH Hall).
    destruct (Ascii.eqb c Host.line_feed); [by constructor|].
    destruct (Host.split_lines text) as [|line lines]; simpl.
    + repeat constructor. simpl. by rewrite Hc.
    + inversion IH; subst. constructor; [|done]. simpl. by rewrite Hc.
Qed.

Lemma split_lines_no_line_feed text :
  Forall (λ line,
            Host.all_chars (λ c, negb (Ascii.eqb c Host.line_feed)) line = true)
         (Host.split_lines text).
Proof.
  induction text as [|c text IH]; simpl.
  - by repeat constructor.
  - destruct (Ascii.eqb c Host.line_feed) eqn:Hc; [by constructor|].
    destruct (Host.split_lines text) as [|line lines]; simpl.
    + repeat constructor. simpl. by rewrite Hc.
    + inversion IH; subst. constructor; [|done]. simpl. by rewrite Hc.
Qed.

Lemma split_lines_single text :
  Host.all_chars (λ c, negb (Ascii.eqb c Host.line_feed)) text = true →
  Host.split_lines text = [text].
Proof.
  induction text as [|c text IH]; simpl; [done|]. intros Hall.
  apply andb_true_iff in Hall as [Hc Hall].
  apply negb_true_iff in Hc. by rewrite Hc, IH.
Qed.

Lemma split_lines_app text rest :
  Host.all_chars (λ c, negb (Ascii.eqb c Host.line_feed)) text = true →
  Host.split_lines (text +:+ String Host.line_feed rest)
  = text :: Host.split_lines rest.
Proof.
  induction text as [|c text IH]; simpl; intros Hall.
  - done.
  - apply andb_true_iff in Hall as [Hc Hall].
    apply negb_true_iff in Hc. by rewrite Hc, IH.
Qed.

Lemma split_join_lines names :
  names ≠ [] →
  Forall (λ name,
            Host.all_chars (λ c, negb (Ascii.eqb c Host.line_feed)) name = true)
         names →
  Host.split_lines (Host.join_lines names) = names.
Proof.
  intros Hne Hall. induction Hall as [|name names Hname Hall IH]; [done|].
  destruct names as [|name' names].
  - simpl. by apply split_lines_single.
  - change (Host.join_lines (name :: name' :: names))
      with (name +:+ String Host.line_feed
                       (Host.join_lines (name' :: names))).
    rewrite split_lines_app by done. by rewrite IH.
Qed.

Lemma join_lines_all test names :
  test Host.line_feed = true →
  Forall (λ name, Host.all_chars test name = true) names →
  Host.all_chars test (Host.join_lines names) = true.
Proof.
  intros Hlf Hall. induction Hall as [|name names Hname Hall IH]; [done|].
  destruct names as [|name' names]; [done|].
  change (Host.join_lines (name :: name' :: names))
    with (name +:+ String Host.line_feed (Host.join_lines (name' :: names))).
  rewrite all_chars_app. simpl. by rewrite Hname, Hlf, IH.
Qed.

(** A text without carriage return comes back from the text area as it
    is, and no text comes back with one. *)
Lemma textarea_value_plain text :
  Host.all_chars (λ c, negb (Ascii.eqb c Host.carriage_return)) text = true →
  Host.textarea_value text = text.
Proof.
  induction text as [|c text IH]; simpl; [done|]. intros Hall.
  apply andb_true_iff in Hall as [Hc Hall].
  apply negb_true_iff in Hc. by rewrite Hc, IH.
Qed.

Lemma textarea_value_no_carriage_return raw :
  Host.all_chars (λ c, negb (Ascii.eqb c Host.carriage_return))
    (Host.textarea_value raw) = true.
Proof.
  assert (Hboth : ∀ n raw, String.length raw ≤ n →
    Host.all_chars (λ c, negb (Ascii.eqb c Host.carriage_return))
      (Host.textarea_value raw) = true).
  { clear raw. induction n as [|n IH]; intros raw Hlen.
    - destruct raw; [done | simpl in Hlen; lia].
    - destruct raw as [|c rest]; [done|]. simpl in Hlen. simpl.
      destruct (Ascii.eqb c Host.carriage_return) eqn:Hc.
      + simpl. destruct rest as [|c' rest']; [done|]. simpl in Hlen.
        destruct (Ascii.eqb c' Host.line_feed); apply IH; simpl; lia.
      + simpl. rewrite Hc. simpl. apply IH. lia. }
  by apply (Hboth (String.length raw)).
Qed.

Lemma proper_name_parts name :
  Host.proper_name name = true ↔
  Host.all_chars (λ c, negb (Ascii.eqb c Host.line_feed)) name = true ∧
  Host.all_chars (λ c, negb (Ascii.eqb c Host.carriage_return)) name = true ∧
  Host.all_chars Host.is_white_space name = false.
Proof.
  unfold Host.proper_name. rewrite andb_true_iff, negb_true_iff.
  assert (Hsplit :
    Host.all_chars (λ c, negb (Ascii.eqb c Host.line_feed)
                         && negb (Ascii.eqb c Host.carriage_return)) name
    = Host.all_chars (λ c, negb (Ascii.eqb c Host.line_feed)) name
      && Host.all_chars (λ c, negb (Ascii.eqb c Host.carriage_return)) name).
  { induction name as [|c name IH]; simpl; [done|]. rewrite IH.
    destruct (Ascii.eqb c Host.line_feed), (Ascii.eqb c Host.carriage_return),
      (Host.all_chars _ name), (Host.all_chars _ name); done. }
  rewrite Hsplit, andb_true_iff. tauto.
Qed.

(** The entries the save handler reads are proper names. *)
Lemma entered_list_all_proper raw :
  Forall (λ name, Host.proper_name name = true)
         (Host.entered_list (Host.textarea_value raw)).
Proof.
  unfold Host.entered_list.
  destruct (Host.Boolean (Host.textarea_value raw)); [|done].
  apply Forall_forall. intros name Hin.
  apply list_elem_of_In, filter_In in Hin as [Hin Hkeep].
  apply list_elem_of_In in Hin.
  rewrite Boolean_trim, negb_true_iff in Hkeep.
  apply proper_name_parts. split; [|split; [|done]].
  - pose proof (split_lines_no_line_feed (Host.textarea_value raw)) as Hall.
    rewrite Forall_forall in Hall. by apply Hall.
  - pose proof (split_lines_all _ _ (textarea_value_no_carriage_return raw))
      as Hall.
    rewrite Forall_forall in Hall. by apply Hall.
Qed.

(** Showing a list of proper names and reading it back. *)
Lemma shown_list_round_trip names :
  Forall (λ name, Host.proper_name name = true) names →
  Host.entered_list (Host.textarea_value (Host.shown_list names)) = names.
Proof.
  intros Hall. unfold Host.shown_list.
  destruct names as [|name names]; [done|].
  rewrite decide_False by done.
  assert (Hparts : Forall (λ name,
    Host.all_chars (λ c, negb (Ascii.eqb c Host.line_feed)) name = true ∧
    Host.all_chars (λ c, negb (Ascii.eqb c Host.carriage_return)) name = true ∧
    Host.all_chars Host.is_white_space name = false) (name :: names)).
  { eapply Forall_impl; [exact Hall|]. intros n Hn. by apply proper_name_parts. }
  rewrite textarea_value_plain.
  2: { apply join_lines_all; [done|].
       eapply Forall_impl; [exact Hparts|]. by intros n (_ & ? & _). }
  unfold Host.entered_list.
  assert (Hshown : Host.Boolean (Host.join_lines (name :: names)) = true).
  { inversion Hparts as [|? ? (_ & _ & Hblank) _]; subst.
    destruct name as [|c name]; [done|].
    destruct names; done. }
  rewrite Hshown, split_join_lines.
  2: done.
  2: { eapply Forall_impl; [exact Hparts|]. by intros n (? & _). }
  clear Hshown Hall. induction Hparts as [|n ns (_ & _ & Hblank) _ IH]; [done|].
  simpl. rewrite Boolean_trim, Hblank. simpl. by rewrite IH.
Qed.

(** X15. Whatever is typed into a text area of the settings, the list the
    save handler reads from it holds single lines only, each with
    something else than white space on it: blank lines and line breaks
    never get into the name list or the prize list. *)
Theorem entered_list_proper raw :
  Forall (λ name, Host.proper_name name = true)
         (Host.entered_list (Host.textarea_value raw)).
Proof. apply entered_list_all_proper. Qed.

(** X16. The text the settings dialog shows for a list of names, read back
    by the save handler, is that list again, as long as every name is a
    single non-blank line; the empty list is shown as the empty text and
    read back as the empty list. *)
Theorem shown_list_entered_back names :
  Forall (λ name, Host.proper_name name = true) names →
  Host.entered_list (Host.textarea_value (Host.shown_list names)) = names.
Proof. apply shown_list_round_trip. Qed.

End HostText.

Lemma shown_list_entered_back_witness :
  Host.entered_list
    (Host.textarea_value (Host.shown_list ["Alice"; " Bob Jr. "; "Carol"]))
  = ["Alice"; " Bob Jr. "; "Carol"].
Proof.
  apply (shown_list_entered_back ["Alice"; " Bob Jr. "; "Carol"]).
  repeat constructor.
Defined.

(** ** The host page: handlers *)

Section HostPage.
Implicit Types (p : Host.Page) (rs : RandomSource).

Lemma spin_begin_lists s rs :
  let s' := after (spin_begin s rs) in
  (nameList s' = nameList s ∨ ∃ i, nameList s' = delete i (nameList s)) ∧
  (prizeList s' = prizeList s ∨ prizeList s' = tail (prizeList s)).
Proof.
  unfold spin_begin. case_decide; [by split; left|].
  destruct (reelContainer s), (reelAnimation s); simpl; try (by split; left).
  split.
  - destruct (shouldRemoveWinner s); [right; by eexists | by left].
  - right. apply splice1_head.
Qed.

Lemma Forall_tail_proper {A} (P : A → Prop) (l : list A) :
  Forall P l → Forall P (tail l).
Proof. intros Hl. destruct Hl; simpl; [constructor | done]. Qed.

(** What one action keeps. *)
Lemma act_keeps_proper (a : Host.Action) p :
  Forall (λ name, Host.proper_name name = true) (nameList (Host.slot p)) →
  Forall (λ prize, Host.proper_name prize = true) (prizeList (Host.slot p)) →
  Forall (λ name, Host.proper_name name = true)
         (nameList (Host.slot (Host.act a p))) ∧
  Forall (λ prize, Host.proper_name prize = true)
         (prizeList (Host.slot (Host.act a p))).
Proof.
  intros Hn Hp. destruct a; simpl; try done.
  - split; apply entered_list_all_proper.
  - unfold Host.on_draw_click. repeat case_decide; simpl; try done.
    destruct (onSpinStart (Host.slot p)); simpl;
      destruct (spin_begin_lists (Host.slot p) rs) as ([-> | [i ->]] & [-> | ->]);
      split; try done; try (by apply Forall_delete);
      by apply Forall_tail_proper.
  - unfold Host.on_stop_click, forceStopSpin.
    destruct (reelContainer (Host.slot p)); simpl; done.
  - unfold Host.on_animation_finish. destruct (Host.awaiting p); simpl; done.
Qed.

(** X17. On the page, every name and every prize the engine holds is a
    single line with something else than white space on it, whatever is
    typed and clicked, and in whatever order, once it was so. *)
Theorem page_lists_stay_proper (actions : list Host.Action) p :
  Forall (λ name, Host.proper_name name = true) (nameList (Host.slot p)) →
  Forall (λ prize, Host.proper_name prize = true) (prizeList (Host.slot p)) →
  Forall (λ name, Host.proper_name name = true)
         (nameList (Host.slot (Host.acts actions p))) ∧
  Forall (λ prize, Host.proper_name prize = true)
         (prizeList (Host.slot (Host.acts actions p))).
Proof.
  revert p. induction actions as [|a actions IH]; intros p Hn Hp; [done|].
  destruct (act_keeps_proper a p Hn Hp) as [Hn' Hp'].
  by apply (IH (Host.act a p)).
Qed.

Lemma page_lists_stay_proper_witness :
  let p := first_page (Scenario.fresh 3 true) in
  let actions :=
    [Host.TypeNames (Host.join_lines ["Alice"; ""; " Bob "; "   "; "Carol"]);
     Host.TypePrizes (Host.join_lines ["Gold"; "Silver"]);
     Host.ClickSave; Host.ClickDraw Scenario.half; Host.ClickStop;
     Host.AnimationFinish; Host.ClickSettings; Host.ClickSave] in
  Forall (λ name, Host.proper_name name = true)
         (nameList (Host.slot (Host.acts actions p))) ∧
  Forall (λ prize, Host.proper_name prize = true)
         (prizeList (Host.slot (Host.acts actions p))).
Proof.
  apply (page_lists_stay_proper
    [Host.TypeNames (Host.join_lines ["Alice"; ""; " Bob "; "   "; "Carol"]);
     Host.TypePrizes (Host.join_lines ["Gold"; "Silver"]);
     Host.ClickSave; Host.ClickDraw Scenario.half; Host.ClickStop;
     Host.AnimationFinish; Host.ClickSettings; Host.ClickSave]
    (first_page (Scenario.fresh 3 true))).
  - constructor.
  - constructor.
Defined.

(** X18. Opening the settings and saving them with nothing edited keeps
    the name list, so winners already removed stay removed, and keeps the
    winner log and the removal setting; but the prize
    queue is read again from the prize text area, which the dialog does
    not refresh, so prizes already drawn return; the carry-over is reset
    and the dialog closed. *)
Theorem open_and_save_unchanged p :
  Forall (λ name, Host.proper_name name = true) (nameList (Host.slot p)) →
  let p' := Host.on_save_click (Host.onSettingsOpen p) in
  nameList (Host.slot p') = nameList (Host.slot p) ∧
  prizeList (Host.slot p')
    = Host.entered_list (Host.textarea_value (Host.prizeListTextArea p)) ∧
  winnerList (Host.slot p') = winnerList (Host.slot p) ∧
  shouldRemoveWinner (Host.slot p') = shouldRemoveWinner (Host.slot p) ∧
  havePreviousWinner (Host.slot p') = false ∧
  Host.settingsShown p' = false ∧
  Host.activePrize p' = active_prize (prizeList (Host.slot p')).
Proof.
  intros Hn. simpl.
  rewrite (shown_list_round_trip _ Hn).
  repeat split.
  unfold getActivePrizeToDraw. simpl.
  by destruct (Host.entered_list _).
Qed.

Lemma open_and_save_unchanged_witness :
  let p := Host.acts
    [Host.TypeNames (Host.join_lines ["Alice"; "Bob"; "Carol"]);
     Host.TypePrizes (Host.join_lines ["Gold"; "Silver"]);
     Host.ClickSave; Host.ClickDraw Scenario.half; Host.ClickStop;
     Host.AnimationFinish] (first_page (Scenario.fresh 3 true)) in
  let p' := Host.on_save_click (Host.onSettingsOpen p) in
  nameList (Host.slot p') = nameList (Host.slot p) ∧
  prizeList (Host.slot p')
    = Host.entered_list (Host.textarea_value (Host.prizeListTextArea p)) ∧
  winnerList (Host.slot p') = winnerList (Host.slot p) ∧
  shouldRemoveWinner (Host.slot p') = shouldRemoveWinner (Host.slot p) ∧
  havePreviousWinner (Host.slot p') = false ∧
  Host.settingsShown p' = false ∧
  Host.activePrize p' = active_prize (prizeList (Host.slot p')).
Proof.
  apply (open_and_save_unchanged
    (Host.acts
      [Host.TypeNames (Host.join_lines ["Alice"; "Bob"; "Carol"]);
       Host.TypePrizes (Host.join_lines ["Gold"; "Silver"]);
       Host.ClickSave; Host.ClickDraw Scenario.half; Host.ClickStop;
       Host.AnimationFinish] (first_page (Scenario.fresh 3 true)))).
  repeat constructor.
Defined.

(** X19. The draw button draws only with a name and a prize at hand. With
    an empty name list or an empty prize queue it opens the settings and
    alerts, and the engine is not touched. Otherwise the engine is left as
    it was or a spin has begun, and then the entry logged carries the head
    of the prize queue, never the placeholder, the page shows that prize,
    and the queue has lost it. *)
Theorem draw_click_needs_name_and_prize rs p :
  let p' := Host.on_draw_click rs p in
  (nameList (Host.slot p) = [] ∨ prizeList (Host.slot p) = [] →
   Host.slot p' = Host.slot p ∧
   Host.hooks p' = Host.hooks p ∧
   Host.settingsShown p' = true ∧
   ∃ message, Host.alerts p' = Host.alerts p ++ [message]) ∧
  (Host.slot p' = Host.slot p ∨
   ∃ prize rest winner,
     prizeList (Host.slot p) = prize :: rest ∧
     prizeList (Host.slot p') = rest ∧
     winnerList (Host.slot p')
       = winnerList (Host.slot p) ++ [prize +:+ " - " +:+ winner] ∧
     Host.activePrize p' = prize ∧
     Host.awaiting p' = true).
Proof.
  simpl. unfold Host.on_draw_click.
  destruct (nameList (Host.slot p)) as [|name names] eqn:Hn.
  { simpl. split; [|by left]. intros _. repeat split. by eexists. }
  destruct (prizeList (Host.slot p)) as [|prize rest] eqn:Hp.
  { simpl. split; [|by left]. intros _. repeat split. by eexists. }
  rewrite !decide_False by done. split.
  { intros [?|?]; done. }
  unfold spin_begin. simpl. rewrite Hn, Hp. simpl.
  destruct (reelContainer (Host.slot p)) as [children|],
           (reelAnimation (Host.slot p)) as [anim|];
    destruct (onSpinStart (Host.slot p)); simpl; try (by left).
  all: right; exists prize, rest; eexists; repeat split;
    unfold getActivePrizeToDraw; rewrite Hp; done.
Qed.

End HostPage.

(** ** Hooks of a spin *)

(** X20. A successful spin calls the configured hooks in this order:
    [onSpinStart] once, then [onSpinEnd] once when the animation ends by
    itself, and twice when it is ended by [forceStopSpin()], which calls
    the hook itself before the waiting [spin()] calls it again. *)
Theorem spin_hook_calls (how : Ending) (s : Slot) (rs : RandomSource) :
  value (spin how s rs) = true →
  fired (spin how s rs) =
    (if onSpinStart s then [SpinStartHook] else []) ++
    (if onSpinEnd s
     then match how with
          | Natural => [SpinEndHook]
          | Forced => [SpinEndHook; SpinEndHook]
          end
     else []).
Proof.
  intros Hok. rewrite (spin_fired how s rs Hok). unfold call_hook.
  by destruct how, (onSpinEnd s).
Qed.

Lemma spin_hook_calls_witness :
  fired (spin Forced Scenario.gala Scenario.half) =
    (if onSpinStart Scenario.gala then [SpinStartHook] else []) ++
    (if onSpinEnd Scenario.gala
     then [SpinEndHook; SpinEndHook]
     else []).
Proof.
  apply (spin_hook_calls Forced Scenario.gala Scenario.half).
  reflexivity.
Defined.
